(** * Stockfish search coordination: root moves, limits and the thread pool

    A shallow embedding of [search.h] and [thread.h].  C++ [int] values
    ([Value], [Depth]) and the 64-bit [TimePoint] are integers of [Z]; the
    only arithmetic the embedded code performs on them is comparison, negation
    of a constant and the unsigned 64-bit sum of [ThreadPool::accumulate],
    whose wrap-around is written out.  [std::vector] is [list]. *)

From Stdlib Require Import ZArith Lia.
From stdpp Require Import base decidable relations option list sorting gmap.

Local Open Scope Z_scope.

(* ===================================================================== *)
(** * Part I: the embedding *)
(* ===================================================================== *)

(** ** types.h (taken as a parameter)

    [search.h] includes [types.h] and [position.h] for [Move], [Value],
    [Depth], [Color], [Position] and the constant [VALUE_INFINITE].  [Value]
    and [Depth] are [int]; [Color] indexes the two-element arrays
    [time[COLOR_NB]] and [inc[COLOR_NB]].  The move type (compared with [==]),
    the position type and the constant are parameters. *)

Definition Value := Z.
Definition Depth := Z.
Definition TimePoint := Z.

Inductive Color := WHITE | BLACK.

Class TypesH := {
  Move : Type;
  Move_eq_dec :: EqDecision Move;
  Position : Type;
  VALUE_INFINITE : Value
}.

(** A C++ integer used as a condition: nonzero is true. *)
Definition to_bool (x : Z) : bool := negb (x =? 0).

(** Unsigned 64-bit wrap-around ([uint64_t] arithmetic). *)
Definition wrap64 (z : Z) : Z := z mod 2 ^ 64.

(** ** search.h: RootMove *)

Record RootMove `{TypesH} := mkRootMove {
  score : Value;
  previousScore : Value;
  averageScore : Value;
  uciScore : Value;
  scoreLowerbound : bool;
  scoreUpperbound : bool;
  selDepth : Z;
  tbRank : Z;
  tbScore : Value;
  pv : list Move
}.

Definition RootMoves `{TypesH} := list RootMove.

(** [explicit RootMove(Move m) : pv(1, m) {}] with the default member
    initialisers of lines 98-105.  [tbScore] has no initialiser: the value it
    holds is whatever the storage contained, passed here as [indeterminate]. *)
Definition RootMove_ctor `{TypesH} (indeterminate : Value) (m : Move) : RootMove :=
  {| score := - VALUE_INFINITE;
     previousScore := - VALUE_INFINITE;
     averageScore := - VALUE_INFINITE;
     uciScore := - VALUE_INFINITE;
     scoreLowerbound := false;
     scoreUpperbound := false;
     selDepth := 0;
     tbRank := 0;
     tbScore := indeterminate;
     pv := replicate 1 m |}.

(** [bool operator==(const Move& m) const { return pv[0] == m; }]
    [std::vector::operator[]] is unchecked: on an empty [pv] the access is out
    of bounds and the call has no defined result ([None]). *)
Definition RootMove_eq_Move `{TypesH} (rm : RootMove) (m : Move) : option bool :=
  match pv rm with
  | [] => None
  | m0 :: _ => Some (bool_decide (m0 = m))
  end.

(** [bool operator<(const RootMove& m) const {
       return m.score != score ? m.score < score
                               : m.previousScore < previousScore; }] *)
Definition RootMove_lt `{TypesH} (this m : RootMove) : bool :=
  if negb (score m =? score this)
  then score m <? score this
  else previousScore m <? previousScore this.

(** ** search.h: LimitsType *)

Record LimitsType `{TypesH} := mkLimitsType {
  searchmoves : list Move;
  time : Color -> TimePoint;
  inc : Color -> TimePoint;
  npmsec : TimePoint;
  movetime : TimePoint;
  startTime : TimePoint;
  movestogo : Z;
  depth : Z;
  mate : Z;
  perft : Z;
  infinite : Z;
  nodes : Z
}.

(** [LimitsType()]: the chained assignments of lines 120-122 store zero in
    every field except [startTime]; [searchmoves] is default-constructed
    (empty).  [startTime] keeps whatever the storage held. *)
Definition LimitsType_ctor `{TypesH} (indeterminate : TimePoint) : LimitsType :=
  {| searchmoves := [];
     time := fun _ => 0;
     inc := fun _ => 0;
     npmsec := 0;
     movetime := 0;
     startTime := indeterminate;
     movestogo := 0;
     depth := 0;
     mate := 0;
     perft := 0;
     infinite := 0;
     nodes := 0 |}.

(** [bool use_time_management() const { return time[WHITE] || time[BLACK]; }] *)
Definition use_time_management `{TypesH} (l : LimitsType) : bool :=
  to_bool (time l WHITE) || to_bool (time l BLACK).

(** ** thread.h: Thread and ThreadPool

    A [Thread] is a [Search::Worker] plus its signalling state.  Of the
    worker, the embedding keeps the members the pool reads or assigns: the
    three atomic [uint64_t] counters [nodes], [tbHits] and [bestMoveChanges],
    the limits, the root position and the root move list. *)

Record Thread `{TypesH} := mkThread {
  idx : nat;
  Thread_nodes : Z;
  Thread_tbHits : Z;
  Thread_bestMoveChanges : Z;
  limits : LimitsType;
  rootPos : Position;
  rootMoves : RootMoves;
  searching : bool
}.

Record ThreadPool `{TypesH} := mkThreadPool {
  stop : bool;
  increaseDepth : bool;
  threads : list Thread
}.

(** [uint64_t accumulate(std::atomic<uint64_t> Thread::*member) const]:
    [sum] starts at 0 and every thread's counter is loaded and added to it in
    [uint64_t] arithmetic, in the order of the [threads] vector. *)
Definition accumulate `{TypesH} (member : Thread -> Z) (p : ThreadPool) : Z :=
  fold_left (fun sum th => wrap64 (sum + member th)) (threads p) 0.

Definition nodes_searched `{TypesH} (p : ThreadPool) : Z := accumulate Thread_nodes p.
Definition tb_hits `{TypesH} (p : ThreadPool) : Z := accumulate Thread_tbHits p.

(** The mathematical sum of one counter over the pool. *)
Definition counter_total `{TypesH} (member : Thread -> Z) (p : ThreadPool) : Z :=
  foldr Z.add 0 (member <$> threads p).

(** A counter fits its [uint64_t] storage. *)
Definition is_uint64 (z : Z) : Prop := 0 <= z < 2 ^ 64.

(** ** The parts of the core whose bodies are in search.cpp and thread.cpp

    [search.h] and [thread.h] declare [Worker::search], [Worker::qsearch],
    [ThreadPool::start_thinking] and the idle loop; their bodies are in files
    this development does not have.  The definitions of this section follow
    the specification's description of them. *)

(** The collaborators the core consumes (move generation, the recursive
    search below the root with everything it touches, and the tuning
    constants of the aspiration window). *)
Class Collaborators `{TypesH} := {
  (** legal-move enumeration of the position collaborator *)
  legal_moves : Position -> list Move;
  (** the worker's heuristic tables together with its view of the shared
      transposition table *)
  Tables : Type;
  (** the recursive search of one root move: remaining depth, window and the
      move's rank among the moves tried; it returns the score seen from the
      root and the continuation it found *)
  child_search :
    Tables -> Position -> Move -> Depth -> Value -> Value -> nat ->
    Tables * Value * list Move;
  (** half-width of the first aspiration window and its growth factor *)
  aspiration_delta : Value;
  aspiration_ratio : Value;
  (** the maximum supported search depth *)
  MAX_PLY : Depth
}.

(** What the core requires of them: scores are bounded integers strictly
    inside the value range, and the window really widens. *)
Class CollaboratorsOk `{Collaborators} : Prop := {
  VALUE_INFINITE_pos : 0 < VALUE_INFINITE;
  child_search_bounded :
    forall tb pos m d alpha beta k,
      - VALUE_INFINITE < (child_search tb pos m d alpha beta k).1.2 < VALUE_INFINITE;
  aspiration_delta_pos : 1 <= aspiration_delta;
  aspiration_ratio_ge : 2 <= aspiration_ratio
}.

(** Modelled from the spec: the re-sort of the RootMove entries "by the total
    order in §3" after each depth (§4.2); the call is in search.cpp.  The
    sort is the stable one: entries that compare equivalent keep their
    relative order.  [sort_insert x l] puts [x], which stood before every
    entry of [l], in front of the first entry that does not sort strictly
    before it. *)
Fixpoint sort_insert `{TypesH} (x : RootMove) (l : RootMoves) : RootMoves :=
  match l with
  | [] => [x]
  | y :: l' => if RootMove_lt y x then y :: sort_insert x l' else x :: l
  end.

(** Modelled from the spec: the stable sort of a RootMove list (§4.2,
    search.cpp), by insertion from the back. *)
Definition stable_sort `{TypesH} (l : RootMoves) : RootMoves :=
  foldr sort_insert [] l.

(** [a] does not sort strictly after [b]: the order a sorted list is in. *)
Definition RootMove_le `{TypesH} (a b : RootMove) : Prop := RootMove_lt b a = false.

(** [a] and [b] compare equivalent: neither sorts strictly before the other. *)
Definition tied_with `{TypesH} (a b : RootMove) : bool :=
  negb (RootMove_lt a b) && negb (RootMove_lt b a).

(** What any stable sort by [operator<] returns for [l]: a permutation of
    [l], in order, in which the entries that compare equivalent to a given
    one stand in the order they had in [l]. *)
Definition stable_sort_of `{TypesH} (l l' : RootMoves) : Prop :=
  l' ≡ₚ l /\
  Sorted RootMove_le l' /\
  forall a, List.filter (tied_with a) l' = List.filter (tied_with a) l.

(** Modelled from the spec: the RootMove list [start_thinking] assigns (§4.4,
    thread.cpp): one RootMove per legal root move (§3), "optionally
    restricted to the caller's move subset", which leaves no move when the
    restriction excludes every legal move. *)
Definition root_move_list `{Collaborators} (indeterminate : Value)
    (pos : Position) (lim : LimitsType) : RootMoves :=
  RootMove_ctor indeterminate <$>
    filter (fun m => searchmoves lim = [] \/ m ∈ searchmoves lim) (legal_moves pos).

(** Modelled from the spec: [ThreadPool::start_thinking] (§4.4, thread.cpp):
    it "clears the stop flag, clones the position ... into every thread's
    root snapshot, assigns the RootMove list ..., then signals every Thread
    to start". *)
Definition start_thinking `{Collaborators} (indeterminate : Value)
    (p : ThreadPool) (pos : Position) (lim : LimitsType) : ThreadPool :=
  {| stop := false;
     increaseDepth := increaseDepth p;
     threads :=
       (fun th =>
          {| idx := idx th;
             Thread_nodes := Thread_nodes th;
             Thread_tbHits := Thread_tbHits th;
             Thread_bestMoveChanges := Thread_bestMoveChanges th;
             limits := lim;
             rootPos := pos;
             rootMoves := root_move_list indeterminate pos lim;
             searching := true |}) <$> threads p |}.

(** Modelled from the spec: what can happen to the pool (§4.3, §5, §6;
    thread.cpp and search.cpp).  The stop flag is written by
    [start_thinking], by the MainThread, which raises it "when [the budget
    is] exceeded, when a ponder-hit with stop on ponderhit is requested, or
    when the position is already decided", and by an external cancel
    request; every worker only reads it at node entry, where it also counts
    the node. *)
Inductive PoolEvent `{TypesH} :=
| EvStartThinking (pos : Position) (lim : LimitsType)
| EvTimeUp
| EvPonderhitStop
| EvRootDecided
| EvExternalStop
| EvNodeEntry (i : nat)
| EvSearchFinished (i : nat).

(** Modelled from the spec: raising the flag (§4.3, §6): [stop = true]. *)
Definition raise_stop `{TypesH} (p : ThreadPool) : ThreadPool :=
  {| stop := true; increaseDepth := increaseDepth p; threads := threads p |}.

(** Modelled from the spec: a worker "increments the thread-local node
    counter atomically at node entry" (§4.1). *)
Definition count_node `{TypesH} (th : Thread) : Thread :=
  {| idx := idx th;
     Thread_nodes := wrap64 (Thread_nodes th + 1);
     Thread_tbHits := Thread_tbHits th;
     Thread_bestMoveChanges := Thread_bestMoveChanges th;
     limits := limits th;
     rootPos := rootPos th;
     rootMoves := rootMoves th;
     searching := searching th |}.

(** Modelled from the spec: a thread that finished its session clears its
    searching flag and returns to Idle (§4.3). *)
Definition go_idle `{TypesH} (th : Thread) : Thread :=
  {| idx := idx th;
     Thread_nodes := Thread_nodes th;
     Thread_tbHits := Thread_tbHits th;
     Thread_bestMoveChanges := Thread_bestMoveChanges th;
     limits := limits th;
     rootPos := rootPos th;
     rootMoves := rootMoves th;
     searching := false |}.

(** Thread [i] of the pool changes its own state; the flags are untouched. *)
Definition on_thread `{TypesH} (f : Thread -> Thread) (i : nat) (p : ThreadPool) : ThreadPool :=
  {| stop := stop p; increaseDepth := increaseDepth p; threads := alter f i (threads p) |}.

(** Modelled from the spec: the effect of one event on the pool (§4.3, §4.4,
    §5). *)
Definition pool_step `{Collaborators} (indeterminate : Value)
    (p : ThreadPool) (ev : PoolEvent) : ThreadPool :=
  match ev with
  | EvStartThinking pos lim => start_thinking indeterminate p pos lim
  | EvTimeUp | EvPonderhitStop | EvRootDecided | EvExternalStop => raise_stop p
  | EvNodeEntry i => on_thread count_node i p
  | EvSearchFinished i => on_thread go_idle i p
  end.

(** The pool states a sequence of events goes through, the first one included. *)
Fixpoint pool_trace `{Collaborators} (indeterminate : Value)
    (p : ThreadPool) (evs : list PoolEvent) : list ThreadPool :=
  match evs with
  | [] => [p]
  | ev :: evs' => p :: pool_trace indeterminate (pool_step indeterminate p ev) evs'
  end.

(** An event of the running session: anything but the next [start_thinking]. *)
Definition in_session `{TypesH} (ev : PoolEvent) : Prop :=
  match ev with EvStartThinking _ _ => False | _ => True end.

(** The sum of a list of integers. *)
Definition Zsum (l : list Z) : Z := foldr Z.add 0 l.

(** A state of the loop of [accumulate] next to running workers: the
    counters as they are now (one per thread, in the order of the vector),
    the index of the next thread to load, and [sum]. *)
Record AccState := mkAcc {
  acc_mem : list Z;
  acc_next : nat;
  acc_sum : Z
}.

(** Modelled from the spec: [accumulate] takes no lock (thread.h), so between
    two of its loads the owning threads go on counting: each "increments the
    thread-local node counter atomically" (§4.1), a counter being "written
    only by [its] owning thread and read by anyone" (§5).  A step is either
    the next load of the loop or one increment of one counter (which does
    not overflow). *)
Inductive acc_step : AccState -> AccState -> Prop :=
| acc_load mem i sum v :
    mem !! i = Some v ->
    acc_step (mkAcc mem i sum) (mkAcc mem (S i) (wrap64 (sum + v)))
| acc_count mem i sum k v :
    mem !! k = Some v ->
    v + 1 < 2 ^ 64 ->
    acc_step (mkAcc mem i sum) (mkAcc (<[k := v + 1]> mem) i sum).

(** Modelled from the spec: the stop flag as a worker sees it (§5, search.cpp).
    The flag is monotone within a session, so what the successive reads of a
    worker return is fixed by the number of the first read that finds it
    raised ([None]: it is never raised). *)
Definition stop_observed (stop_at : option nat) (t : nat) : bool :=
  match stop_at with
  | Some k => bool_decide (k <= t)%nat
  | None => false
  end.

(** Modelled from the spec: the state of one worker's search (§3 Worker):
    its tables, the number of reads of the stop flag it has made, and its
    RootMove list. *)
Record Search `{Collaborators} := mkSearch {
  tables : Tables;
  clock : nat;
  entries : RootMoves
}.

(** Modelled from the spec: what a search of the root returns (§4.1): the
    state it leaves, the best score, and whether it was cancelled. *)
Record RootResult `{Collaborators} := mkRootResult {
  after : Search;
  bestValue : Value;
  stopped : bool
}.

Arguments mkSearch {_ _} _ _ _.
Arguments mkRootResult {_ _} _ _ _.

(** Modelled from the spec: the update of a RootMove entry by the Root node
    (§4.1 "updates RootMove entries", §3; search.cpp).  The entry keeps its
    first move and takes the continuation found below it; the bound flags
    say whether the score failed high (at least [beta]) or low (at most
    [alpha]). *)
Definition record_score `{TypesH} (rm : RootMove) (m : Move) (v : Value)
    (line : list Move) (alpha beta : Value) : RootMove :=
  {| score := v;
     previousScore := previousScore rm;
     averageScore := averageScore rm;
     uciScore := if beta <=? v then beta else if v <=? alpha then alpha else v;
     scoreLowerbound := beta <=? v;
     scoreUpperbound := negb (beta <=? v) && (v <=? alpha);
     selDepth := selDepth rm;
     tbRank := tbRank rm;
     tbScore := tbScore rm;
     pv := m :: line |}.

(** Modelled from the spec: a root move that did not improve the window keeps
    its line and its score "is normally set at -VALUE_INFINITE for all non-pv
    moves" (search.h, the comment above [RootMove]). *)
Definition demote `{TypesH} (rm : RootMove) : RootMove :=
  {| score := - VALUE_INFINITE;
     previousScore := previousScore rm;
     averageScore := averageScore rm;
     uciScore := uciScore rm;
     scoreLowerbound := scoreLowerbound rm;
     scoreUpperbound := scoreUpperbound rm;
     selDepth := selDepth rm;
     tbRank := tbRank rm;
     tbScore := tbScore rm;
     pv := pv rm |}.

(** Modelled from the spec: the entry the Root node leaves for a move scored
    [v] (§4.1, search.cpp): the first move tried and every move that beats
    [alpha] get their score and line recorded, the others are demoted. *)
Definition updated_entry `{TypesH} (rm : RootMove) (m : Move) (v : Value)
    (line : list Move) (alpha beta : Value) (moveCount : nat) : RootMove :=
  if (moveCount =? 1)%nat || (alpha <? v)
  then record_score rm m v line alpha beta
  else demote rm.

(** Modelled from the spec: the move loop of the Root node (§4.1;
    [Worker::search<Root>] in search.cpp).  It "iterates all candidate moves,
    updates RootMove entries"; after every move it reads the stop flag and,
    when raised, unwinds at once leaving the entries as they are; a score of
    at least [beta] stops the scan; a score above [alpha] raises [alpha].
    The first move of an entry is [pv[0]], an unchecked access: the loop has
    no result ([None]) on an entry whose [pv] is empty. *)
Fixpoint root_moves_loop `{Collaborators} (stop_at : option nat) (pos : Position)
    (d : Depth) (beta : Value) (seen todo : RootMoves) (tb : Tables) (t : nat)
    (alpha best : Value) (moveCount : nat) : option RootResult :=
  match todo with
  | [] => Some (mkRootResult (mkSearch tb t seen) best false)
  | rm :: rest =>
    match pv rm with
    | [] => None
    | m :: _ =>
      let '(tb', v, line) := child_search tb pos m (d - 1) alpha beta moveCount in
      if stop_observed stop_at t
      then Some (mkRootResult (mkSearch tb' (S t) (seen ++ rm :: rest)) best true)
      else
        let rm' := updated_entry rm m v line alpha beta moveCount in
        if (best <? v) && (alpha <? v) && (beta <=? v)
        then Some (mkRootResult (mkSearch tb' (S t) (seen ++ rm' :: rest)) v false)
        else
          root_moves_loop stop_at pos d beta (seen ++ [rm']) rest tb' (S t)
            (if (best <? v) && (alpha <? v) then v else alpha)
            (Z.max best v) (S moveCount)
    end
  end.

(** Modelled from the spec: the search of the Root node in the window
    [(alpha, beta)] (§4.1): the move loop from the first entry on, with no
    best score yet. *)
Definition root_search `{Collaborators} (stop_at : option nat) (pos : Position)
    (d : Depth) (alpha beta : Value) (s : Search) : option RootResult :=
  root_moves_loop stop_at pos d beta [] (entries s) (tables s) (clock s)
    alpha (- VALUE_INFINITE) 1%nat.

(** Modelled from the spec: the aspiration loop of the iterative-deepening
    driver (§4.2, search.cpp): "an aspiration window centered on the previous
    iteration's score that widens geometrically on failure (fail-low or
    fail-high) until the search succeeds within the window or the window
    spans the full legal value range"; the entries are re-sorted after every
    search of the root.  [fuel] bounds the number of windows tried. *)
Fixpoint aspiration `{Collaborators} (fuel : nat) (stop_at : option nat)
    (pos : Position) (d : Depth) (center delta : Value) (s : Search)
    : option (Search * bool) :=
  match fuel with
  | O => None
  | S fuel' =>
    let alpha := Z.max (center - delta) (- VALUE_INFINITE) in
    let beta := Z.min (center + delta) VALUE_INFINITE in
    match root_search stop_at pos d alpha beta s with
    | None => None
    | Some r =>
      let s' := mkSearch (tables (after r)) (clock (after r))
                         (stable_sort (entries (after r))) in
      if stopped r then Some (s', true)
      else if (bestValue r <=? alpha) || (beta <=? bestValue r)
      then aspiration fuel' stop_at pos d center (aspiration_ratio * delta) s'
      else Some (s', false)
    end
  end.

(** Modelled from the spec: the widening stops at the latest when "the
    window spans the full legal value range" (§4.2): windows of half-width
    [aspiration_delta], [aspiration_ratio * aspiration_delta], ... do so
    after at most this many widenings. *)
Definition aspiration_fuel `{TypesH} : nat := S (Z.to_nat (2 * VALUE_INFINITE)).

(** Modelled from the spec: at the start of an iteration the current score
    becomes the "previous-iteration score" of the entry (§3, search.cpp). *)
Definition age_score `{TypesH} (rm : RootMove) : RootMove :=
  {| score := score rm;
     previousScore := score rm;
     averageScore := averageScore rm;
     uciScore := uciScore rm;
     scoreLowerbound := scoreLowerbound rm;
     scoreUpperbound := scoreUpperbound rm;
     selDepth := selDepth rm;
     tbRank := tbRank rm;
     tbScore := tbScore rm;
     pv := pv rm |}.

(** Modelled from the spec: the iterative-deepening driver (§4.2, search.cpp):
    "for increasing depth 1, 2, 3, ..., re-searches all root moves"; it reads
    the stop flag before every depth and ends the session when an iteration
    was cancelled.  [n] is the number of depths still to search. *)
Fixpoint iterative_deepening `{Collaborators} (n : nat) (stop_at : option nat)
    (pos : Position) (d : Depth) (s : Search) : option Search :=
  match n with
  | O => Some s
  | S n' =>
    if stop_observed stop_at (clock s)
    then Some (mkSearch (tables s) (S (clock s)) (entries s))
    else
      let aged := age_score <$> entries s in
      let center := from_option previousScore (- VALUE_INFINITE) (head aged) in
      match aspiration aspiration_fuel stop_at pos d center aspiration_delta
              (mkSearch (tables s) (S (clock s)) aged) with
      | None => None
      | Some (s', true) => Some s'
      | Some (s', false) => iterative_deepening n' stop_at pos (d + 1) s'
      end
  end.

(** Modelled from the spec: the depths a session searches (§3 SearchLimits,
    §9): up to the fixed depth of the limits when there is one, and never
    beyond the maximum supported search depth. *)
Definition depth_budget `{Collaborators} (lim : LimitsType) : nat :=
  Z.to_nat (if depth lim =? 0 then MAX_PLY else Z.min (depth lim) MAX_PLY).

(** Modelled from the spec: one worker's search session (§2, §4.2, §7;
    search.cpp).  With no root move the session is the "explicit empty-result
    condition": nothing is searched.  The result is read from the first entry
    of the returned list (§6). *)
Definition think `{Collaborators} (indeterminate : Value) (stop_at : option nat)
    (tb : Tables) (pos : Position) (lim : LimitsType) : option Search :=
  let rms := root_move_list indeterminate pos lim in
  match rms with
  | [] => Some (mkSearch tb 0 [])
  | _ :: _ => iterative_deepening (depth_budget lim) stop_at pos 1 (mkSearch tb 0 rms)
  end.

(** The limits of a depth-only search: a default-constructed [LimitsType]
    whose [depth] is then set. *)
Definition depth_only `{TypesH} (indeterminate : TimePoint) (D : Depth) : LimitsType :=
  let l := LimitsType_ctor indeterminate in
  {| searchmoves := searchmoves l;
     time := time l;
     inc := inc l;
     npmsec := npmsec l;
     movetime := movetime l;
     startTime := startTime l;
     movestogo := movestogo l;
     depth := D;
     mate := mate l;
     perft := perft l;
     infinite := infinite l;
     nodes := nodes l |}.

(** The score of an entry is exact: neither bound flag is set. *)
Definition exact_score `{TypesH} (rm : RootMove) : Prop :=
  scoreLowerbound rm = false /\ scoreUpperbound rm = false.

(** An entry is rooted at a legal move of the position: its principal
    variation starts with one. *)
Definition rooted `{Collaborators} (pos : Position) (rm : RootMove) : Prop :=
  exists m line, pv rm = m :: line /\ m ∈ legal_moves pos.

(** The score of an entry lies in the value range. *)
Definition in_range `{TypesH} (rm : RootMove) : Prop :=
  - VALUE_INFINITE <= score rm <= VALUE_INFINITE.

(** The state a search session keeps between two searches of the root: there
    are entries, each rooted at a legal move with a score in range, and they
    are in order. *)
Record session_inv `{Collaborators} (pos : Position) (s : Search) : Prop := {
  inv_nonempty : entries s <> [];
  inv_rooted : Forall (rooted pos) (entries s);
  inv_range : Forall in_range (entries s);
  inv_sorted : Sorted RootMove_le (entries s)
}.

(** The first entry carries an exact score. *)
Definition head_exact `{TypesH} (rms : RootMoves) : Prop :=
  exists rm rest, rms = rm :: rest /\ exact_score rm.

(** Among the entries [l], one has the score [b], and every entry with that
    score carries it as an exact score; all other scores are lower. *)
Definition crowned `{TypesH} (b : Value) (l : RootMoves) : Prop :=
  (exists e, e ∈ l /\ score e = b) /\
  (forall x, x ∈ l -> (score x = b /\ exact_score x) \/ score x < b).

(** ** thread.h: the pool and its threads in memory

    [threads] is a [std::vector<Thread*>]: the pool holds addresses of
    [Thread] objects that live on the heap, and the destructor deletes them.
    A store is the heap (the live [Thread] objects by address) together with
    the members of the pool.  Addresses are those of objects: the pool never
    stores a null pointer, and none is modelled. *)

Record PoolStore `{TypesH} := mkPoolStore {
  store_heap : gmap nat Thread;
  store_stop : bool;
  store_increaseDepth : bool;
  store_threads : list nat
}.

(** [auto size() const noexcept { return threads.size(); }] *)
Definition ThreadPool_size `{TypesH} (st : PoolStore) : nat :=
  length (store_threads st).

(** [auto empty() const noexcept { return threads.empty(); }] *)
Definition ThreadPool_empty `{TypesH} (st : PoolStore) : bool :=
  match store_threads st with [] => true | _ :: _ => false end.

(** [MainThread* main() const { return static_cast<MainThread*>(threads.front()); }]
    [front()] of an empty vector has no defined result ([None]). *)
Definition ThreadPool_main `{TypesH} (st : PoolStore) : option nat :=
  head (store_threads st).

(** The loop of [accumulate] over the pointers: [for (Thread* th : threads)
    sum += (th->*member).load(...)].  Reading through a pointer to no live
    object has no defined result. *)
Fixpoint accumulate_from `{TypesH} (heap : gmap nat Thread) (member : Thread -> Z)
    (ptrs : list nat) (sum : Z) : option Z :=
  match ptrs with
  | [] => Some sum
  | a :: rest =>
    match heap !! a with
    | None => None
    | Some th => accumulate_from heap member rest (wrap64 (sum + member th))
    end
  end.

Definition ThreadPool_accumulate `{TypesH} (member : Thread -> Z) (st : PoolStore)
    : option Z :=
  accumulate_from (store_heap st) member (store_threads st) 0.

(** The threads the pointers of the vector point to, in order, when all of
    them point to live objects. *)
Fixpoint load_threads `{TypesH} (heap : gmap nat Thread) (ptrs : list nat)
    : option (list Thread) :=
  match ptrs with
  | [] => Some []
  | a :: rest =>
    match heap !! a, load_threads heap rest with
    | Some th, Some ths => Some (th :: ths)
    | _, _ => None
    end
  end.

(** The pool as a value: its flags and the threads its pointers point to. *)
Definition load_pool `{TypesH} (st : PoolStore) : option ThreadPool :=
  match load_threads (store_heap st) (store_threads st) with
  | Some ths =>
    Some {| stop := store_stop st;
            increaseDepth := store_increaseDepth st;
            threads := ths |}
  | None => None
  end.

(** What the destructor does to the outside, in order: the call of
    [wait_for_search_finished] on a thread (it blocks until that thread is
    idle; its body is in thread.cpp) and the [delete] of a thread. *)
Inductive PoolCall :=
| CallWaitForSearchFinished (a : nat)
| CallDelete (a : nat).

(** How a run ends: normally, in undefined behaviour, or cut off by the
    bound on the number of loop iterations. *)
Inductive Outcome (A : Type) :=
| Done (x : A)
| Undefined
| OutOfFuel.

Arguments Done {A} x.
Arguments Undefined {A}.
Arguments OutOfFuel {A}.

(** [while (threads.size() > 0) delete threads.back(), threads.pop_back();]
    [delete] of a pointer to no live object (never allocated, or deleted
    before) is undefined. *)
Fixpoint delete_threads `{TypesH} (fuel : nat) (st : PoolStore) (log : list PoolCall)
    : Outcome (PoolStore * list PoolCall) :=
  if (0 <? length (store_threads st))%nat
  then
    match fuel with
    | O => OutOfFuel
    | S fuel' =>
      match last (store_threads st) with
      | None => Undefined
      | Some a =>
        match store_heap st !! a with
        | None => Undefined
        | Some _ =>
          delete_threads fuel'
            {| store_heap := delete a (store_heap st);
               store_stop := store_stop st;
               store_increaseDepth := store_increaseDepth st;
               store_threads := removelast (store_threads st) |}
            (log ++ [CallDelete a])
        end
      end
    end
  else Done (st, log).

(** [~ThreadPool() {
       if (threads.size() > 0) {
           main()->wait_for_search_finished();
           while (threads.size() > 0)
               delete threads.back(), threads.pop_back();
       }
    }] *)
Definition ThreadPool_dtor `{TypesH} (fuel : nat) (st : PoolStore)
    : Outcome (PoolStore * list PoolCall) :=
  if (0 <? length (store_threads st))%nat
  then
    match ThreadPool_main st with
    | None => Undefined
    | Some a =>
      match store_heap st !! a with
      | None => Undefined
      | Some _ => delete_threads fuel st [CallWaitForSearchFinished a]
      end
    end
  else Done (st, []).

(** The pool owns its threads: the vector holds no pointer twice, and every
    pointer in it points to a live thread. *)
Definition owns_threads `{TypesH} (st : PoolStore) : Prop :=
  NoDup (store_threads st) /\
  Forall (fun a => is_Some (store_heap st !! a)) (store_threads st).






(** ** A small engine to run the definitions on

    Moves are numbers, a position is the list of its legal moves, and the
    score of a root move is a fixed arithmetic function of the move and the
    depth, within [-100, 100]. *)

Definition toy_types : TypesH :=
  {| Move := Z; Move_eq_dec := Z.eq_dec; Position := list Z; VALUE_INFINITE := 32001 |}.

Definition toy_value (m : Z) (d : Depth) : Value := (m * 37 + d * 11) mod 201 - 100.

Definition toy_engine : @Collaborators toy_types :=
  {| legal_moves := fun pos : @Position toy_types => pos;
     Tables := nat;
     child_search := fun tb _ m d _ _ _ => (S tb, toy_value m d, [m + 1; m + 2]);
     aspiration_delta := 10;
     aspiration_ratio := 2;
     MAX_PLY := 246 |}.

(** A pool of one idle thread whose flag is still raised from the session
    before. *)
Definition toy_thread : @Thread toy_types :=
  @mkThread toy_types 0 0 0 0 (@LimitsType_ctor toy_types 0) [] [] false.

Definition toy_pool : @ThreadPool toy_types :=
  @mkThreadPool toy_types true true [toy_thread].

(** A second thread, in the middle of a search, and the pool of both. *)
Definition toy_busy_thread : @Thread toy_types :=
  @mkThread toy_types 1 41 2 0 (@LimitsType_ctor toy_types 0) [] [] true.

Definition toy_pool2 : @ThreadPool toy_types :=
  @mkThreadPool toy_types false true [toy_thread; toy_busy_thread].

Definition toy_pool2_swapped : @ThreadPool toy_types :=
  @mkThreadPool toy_types false true [toy_busy_thread; toy_thread].

(** The events of a session that the MainThread ends when the time is up. *)
Definition toy_events : list (@PoolEvent toy_types) :=
  [@EvNodeEntry toy_types 0; @EvTimeUp toy_types; @EvNodeEntry toy_types 0;
   @EvSearchFinished toy_types 0].

(** A store with three live threads, at the addresses 10, 20 and 30, and a
    pool that holds the first two. *)
Definition toy_store : @PoolStore toy_types :=
  @mkPoolStore toy_types
    (<[10%nat := toy_thread]> (<[20%nat := toy_busy_thread]> (<[30%nat := toy_thread]> ∅)))
    false true [10%nat; 20%nat].

(** The same store after the pool is destroyed. *)
Definition toy_store_destroyed : @PoolStore toy_types :=
  @mkPoolStore toy_types (<[30%nat := toy_thread]> ∅) false true [].

(* ===================================================================== *)
(** * Part II: verification *)
(* ===================================================================== *)

(** ** The order of RootMoves *)

Section RootMoveOrder.
Context `{TypesH}.
Implicit Types a b c x y : RootMove.
Implicit Types l : RootMoves.

Lemma RootMove_lt_true a b :
  RootMove_lt a b = true <->
  score b < score a \/ (score b = score a /\ previousScore b < previousScore a).
Proof.
  unfold RootMove_lt.
  destruct (Z.eqb_spec (score b) (score a)) as [e|n]; simpl.
  - rewrite Z.ltb_lt. lia.
  - rewrite Z.ltb_lt. lia.
Qed.

Lemma RootMove_lt_false a b :
  RootMove_lt a b = false <->
  score a < score b \/ (score a = score b /\ previousScore a <= previousScore b).
Proof.
  unfold RootMove_lt.
  destruct (Z.eqb_spec (score b) (score a)) as [e|n]; simpl.
  - rewrite Z.ltb_ge. lia.
  - rewrite Z.ltb_ge. lia.
Qed.

Lemma RootMove_lt_irrefl a : RootMove_lt a a = false.
Proof. apply RootMove_lt_false. lia. Qed.

Lemma RootMove_lt_asym a b : RootMove_lt a b = true -> RootMove_lt b a = false.
Proof. rewrite RootMove_lt_true, RootMove_lt_false. lia. Qed.

Lemma RootMove_lt_trans a b c :
  RootMove_lt a b = true -> RootMove_lt b c = true -> RootMove_lt a c = true.
Proof. rewrite !RootMove_lt_true. lia. Qed.

Lemma RootMove_lt_tied a b :
  RootMove_lt a b = false /\ RootMove_lt b a = false <->
  score a = score b /\ previousScore a = previousScore b.
Proof. rewrite !RootMove_lt_false. lia. Qed.

Lemma RootMove_le_alt a b :
  RootMove_le a b <->
  score b < score a \/ (score b = score a /\ previousScore b <= previousScore a).
Proof. unfold RootMove_le. rewrite RootMove_lt_false. lia. Qed.

#[export] Instance RootMove_le_refl : Reflexive RootMove_le.
Proof. intros a. apply RootMove_lt_irrefl. Qed.

#[export] Instance RootMove_le_trans : Transitive RootMove_le.
Proof. intros a b c. rewrite !RootMove_le_alt. lia. Qed.

Lemma RootMove_le_total a b : RootMove_le a b \/ RootMove_le b a.
Proof. rewrite !RootMove_le_alt. lia. Qed.

Lemma RootMove_lt_le a b : RootMove_lt a b = true -> RootMove_le a b.
Proof. apply RootMove_lt_asym. Qed.

(** *** The stable sort *)

Lemma sort_insert_perm x l : sort_insert x l ≡ₚ x :: l.
Proof.
  induction l as [|y l IH]; simpl; [done|].
  destruct (RootMove_lt y x); [|done].
  rewrite IH. apply Permutation_swap.
Qed.

Lemma stable_sort_perm l : stable_sort l ≡ₚ l.
Proof.
  induction l as [|x l IH]; simpl; [done|].
  rewrite sort_insert_perm. by f_equiv.
Qed.

Lemma sort_insert_HdRel z x l :
  RootMove_le z x -> HdRel RootMove_le z l -> HdRel RootMove_le z (sort_insert x l).
Proof.
  intros Hzx Hzl. destruct l as [|y l]; simpl.
  - by constructor.
  - inversion_clear Hzl. destruct (RootMove_lt y x); by constructor.
Qed.

Lemma sort_insert_Sorted x l :
  Sorted RootMove_le l -> Sorted RootMove_le (sort_insert x l).
Proof.
  induction 1 as [|y l Hs IH Hhd]; simpl.
  - repeat constructor.
  - destruct (RootMove_lt y x) eqn:Hyx.
    + constructor; [exact IH|].
      apply sort_insert_HdRel; [by apply RootMove_lt_le|exact Hhd].
    + constructor; [by constructor|]. constructor. exact Hyx.
Qed.

Lemma stable_sort_Sorted l : Sorted RootMove_le (stable_sort l).
Proof.
  induction l as [|x l IH]; simpl; [constructor|].
  by apply sort_insert_Sorted.
Qed.

Lemma stable_sort_StronglySorted l : StronglySorted RootMove_le (stable_sort l).
Proof. apply Sorted_StronglySorted; [apply _|apply stable_sort_Sorted]. Qed.

(** A list already in order is left as it is. *)
Lemma sort_insert_in_order x l : HdRel RootMove_le x l -> sort_insert x l = x :: l.
Proof.
  destruct 1 as [|y l Hxy]; simpl; [done|].
  unfold RootMove_le in Hxy. by rewrite Hxy.
Qed.

Lemma stable_sort_in_order l : Sorted RootMove_le l -> stable_sort l = l.
Proof.
  induction 1 as [|x l Hs IH Hhd]; simpl; [done|].
  rewrite IH. by apply sort_insert_in_order.
Qed.

Lemma stable_sort_idem l : stable_sort (stable_sort l) = stable_sort l.
Proof. apply stable_sort_in_order, stable_sort_Sorted. Qed.

(** Entries that compare equivalent to a given one keep their relative
    order: the sort is stable. *)
Lemma tied_with_lt_l a x y :
  RootMove_lt y x = true -> tied_with a x = true -> tied_with a y = false.
Proof.
  unfold tied_with. intros Hyx Hax.
  apply andb_true_iff in Hax as [H1 H2].
  apply negb_true_iff in H1, H2.
  assert (RootMove_lt y a = true) as ->; [|by rewrite andb_false_r].
  apply RootMove_lt_true. apply RootMove_lt_true in Hyx.
  apply RootMove_lt_false in H1, H2. lia.
Qed.

Lemma sort_insert_stable a x l :
  List.filter (tied_with a) (sort_insert x l) = List.filter (tied_with a) (x :: l).
Proof.
  induction l as [|y l IH]; [done|].
  cbn [sort_insert]. destruct (RootMove_lt y x) eqn:Hyx; [|done].
  cbn [List.filter] in *. rewrite IH.
  destruct (tied_with a x) eqn:Hx; [|done].
  by rewrite (tied_with_lt_l a x y Hyx Hx).
Qed.

Lemma stable_sort_stable a l :
  List.filter (tied_with a) (stable_sort l) = List.filter (tied_with a) l.
Proof.
  induction l as [|x l IH]; [done|].
  cbn [stable_sort foldr]. rewrite sort_insert_stable.
  cbn [List.filter]. fold (stable_sort l). by rewrite IH.
Qed.

Lemma tied_with_refl a : tied_with a a = true.
Proof. unfold tied_with. by rewrite RootMove_lt_irrefl. Qed.

Lemma tied_with_le a b : RootMove_le a b -> RootMove_le b a -> tied_with a b = true.
Proof. unfold tied_with, RootMove_le. by intros -> ->. Qed.

Lemma stable_sort_is_stable_sort l : stable_sort_of l (stable_sort l).
Proof.
  split_and!.
  - apply stable_sort_perm.
  - apply stable_sort_Sorted.
  - intros a. apply stable_sort_stable.
Qed.

(** Two lists in order with the same entries and the same order among
    equivalent entries are the same list. *)
Lemma sorted_stable_unique l1 :
  forall l2,
    StronglySorted RootMove_le l1 -> StronglySorted RootMove_le l2 ->
    l1 ≡ₚ l2 ->
    (forall a, List.filter (tied_with a) l1 = List.filter (tied_with a) l2) ->
    l1 = l2.
Proof.
  induction l1 as [|x l1 IH]; intros l2 Hs1 Hs2 Hp Hf.
  - symmetry. by apply Permutation_nil.
  - destruct l2 as [|y l2].
    { symmetry in Hp. by apply Permutation_nil_cons in Hp. }
    apply StronglySorted_cons in Hs1 as [Hx Hs1].
    apply StronglySorted_cons in Hs2 as [Hy Hs2].
    rewrite Forall_forall in Hx, Hy.
    assert (RootMove_le x y) as Hxy.
    { assert (y ∈ x :: l1) as [->|Hin]%elem_of_cons
        by (rewrite Hp; apply list_elem_of_here); [reflexivity|by apply Hx]. }
    assert (RootMove_le y x) as Hyx.
    { assert (x ∈ y :: l2) as [->|Hin]%elem_of_cons
        by (rewrite <- Hp; apply list_elem_of_here); [reflexivity|by apply Hy]. }
    pose proof (Hf x) as Hfx. cbn [List.filter] in Hfx.
    rewrite tied_with_refl, (tied_with_le x y Hxy Hyx) in Hfx.
    injection Hfx as <- _.
    f_equal. apply IH; [done|done|by eapply Permutation_cons_inv|].
    intros a. specialize (Hf a). cbn [List.filter] in Hf.
    destruct (tied_with a x); [by injection Hf|done].
Qed.

Lemma stable_sort_of_unique l l1 l2 :
  stable_sort_of l l1 -> stable_sort_of l l2 -> l1 = l2.
Proof.
  intros (Hp1 & Hs1 & Hf1) (Hp2 & Hs2 & Hf2).
  apply sorted_stable_unique.
  - by apply Sorted_StronglySorted; [apply _|].
  - by apply Sorted_StronglySorted; [apply _|].
  - by rewrite Hp1, Hp2.
  - intros a. by rewrite Hf1, Hf2.
Qed.

(** Sorting what a stable sort returned gives the same list again. *)
Lemma stable_sort_of_twice l l1 l2 :
  stable_sort_of l l1 -> stable_sort_of l1 l2 -> l2 = l1.
Proof.
  intros (_ & Hs1 & _) H2.
  apply (stable_sort_of_unique l1); [done|]. by split_and!.
Qed.

(** The first entry of a sorted list is one nothing sorts strictly before. *)
Lemma stable_sort_head_best l rm rest :
  stable_sort l = rm :: rest -> forall x, x ∈ l -> RootMove_lt x rm = false.
Proof.
  intros Hs x Hx.
  pose proof (stable_sort_StronglySorted l) as Hss. rewrite Hs in Hss.
  apply StronglySorted_cons in Hss as [Hall _].
  rewrite <- (stable_sort_perm l), Hs in Hx.
  apply elem_of_cons in Hx as [->|Hx]; [apply RootMove_lt_irrefl|].
  rewrite Forall_forall in Hall. by apply Hall.
Qed.

End RootMoveOrder.

(** C1, as stated, fails: the comparison is not total on RootMoves.  The
    RootMoves constructed from two different moves are different, and
    neither is less than the other. *)
Lemma RootMove_lt_not_total :
  ~ (forall a b : @RootMove toy_types,
       a <> b -> RootMove_lt a b = true \/ RootMove_lt b a = true).
Proof.
  intros Htotal.
  destruct (Htotal (@RootMove_ctor toy_types 0 1) (@RootMove_ctor toy_types 0 2))
    as [Hlt|Hlt].
  - intros Heq. apply (f_equal pv) in Heq. discriminate Heq.
  - vm_compute in Hlt. discriminate Hlt.
  - vm_compute in Hlt. discriminate Hlt.
Qed.

(** C1 (amended): [operator<] is a strict weak order on RootMoves.  It is the
    lexicographic order "higher score first, then higher previous score
    first"; it is irreflexive and transitive; two RootMoves are incomparable
    exactly when they agree on both scores (so it is total on the pair of
    scores, not on RootMoves).  A stable sort by it exists and returns a
    permutation in that order, and sorting a second time, with any stable
    sort, returns the list the first sort returned. *)
Theorem RootMove_lt_strict_weak_order `{TypesH} :
  (forall a b : RootMove,
     RootMove_lt a b = true <->
     score b < score a \/ (score b = score a /\ previousScore b < previousScore a)) /\
  (forall a : RootMove, RootMove_lt a a = false) /\
  (forall a b c : RootMove,
     RootMove_lt a b = true -> RootMove_lt b c = true -> RootMove_lt a c = true) /\
  (forall a b : RootMove,
     RootMove_lt a b = false /\ RootMove_lt b a = false <->
     score a = score b /\ previousScore a = previousScore b) /\
  (forall l : RootMoves,
     stable_sort_of l (stable_sort l) /\
     StronglySorted RootMove_le (stable_sort l) /\
     stable_sort (stable_sort l) = stable_sort l) /\
  (forall l once twice : RootMoves,
     stable_sort_of l once -> stable_sort_of once twice -> twice = once).
Proof.
  split_and!.
  - apply RootMove_lt_true.
  - apply RootMove_lt_irrefl.
  - apply RootMove_lt_trans.
  - apply RootMove_lt_tied.
  - intros l. split_and!.
    + apply stable_sort_is_stable_sort.
    + apply stable_sort_StronglySorted.
    + apply stable_sort_idem.
  - apply stable_sort_of_twice.
Qed.

(** ** RootMove construction and comparison with a move *)

(** C8: the RootMove constructed from [m] has the principal variation [[m]],
    its four scores are [-VALUE_INFINITE], both bound flags are false, and
    [selDepth] and [tbRank] are 0. *)
Theorem RootMove_ctor_fields `{TypesH} (indeterminate : Value) (m : Move) :
  let rm := RootMove_ctor indeterminate m in
  pv rm = [m] /\
  score rm = - VALUE_INFINITE /\
  previousScore rm = - VALUE_INFINITE /\
  averageScore rm = - VALUE_INFINITE /\
  uciScore rm = - VALUE_INFINITE /\
  scoreLowerbound rm = false /\
  scoreUpperbound rm = false /\
  selDepth rm = 0 /\
  tbRank rm = 0.
Proof. cbn. by split_and!. Qed.

(** C9: on a RootMove whose [pv] is not empty, [rm == m] is defined and holds
    exactly when the first move of [pv] is [m]; two RootMoves with the same
    first move give the same answer whatever their scores and the rest of
    their lines; on an empty [pv], and only there, the comparison reads out
    of bounds and has no result. *)
Theorem RootMove_eq_Move_first `{TypesH} :
  (forall (rm : RootMove) (m m0 : Move) (line : list Move),
     pv rm = m0 :: line ->
     exists b, RootMove_eq_Move rm m = Some b /\ (b = true <-> m0 = m)) /\
  (forall (rm rm' : RootMove) (m : Move),
     head (pv rm) = head (pv rm') -> RootMove_eq_Move rm m = RootMove_eq_Move rm' m) /\
  (forall (rm : RootMove) (m : Move),
     RootMove_eq_Move rm m = None <-> pv rm = []).
Proof.
  split_and!.
  - intros rm m m0 line Hpv. unfold RootMove_eq_Move. rewrite Hpv.
    eexists. split; [reflexivity|]. apply bool_decide_eq_true.
  - intros rm rm' m Hhd. unfold RootMove_eq_Move.
    destruct (pv rm) as [|x l], (pv rm') as [|x' l']; simpl in Hhd;
      [done|discriminate Hhd|discriminate Hhd|].
    injection Hhd as ->. reflexivity.
  - intros rm m. unfold RootMove_eq_Move. by destruct (pv rm).
Qed.

(** ** LimitsType *)

Lemma to_bool_true x : to_bool x = true <-> x <> 0.
Proof. unfold to_bool. destruct (Z.eqb_spec x 0); simpl; split; congruence. Qed.

(** C3: [use_time_management()] is true exactly when the clock time of
    WHITE or that of BLACK is nonzero. *)
Theorem use_time_management_iff `{TypesH} (l : LimitsType) :
  use_time_management l = true <-> time l WHITE <> 0 \/ time l BLACK <> 0.
Proof.
  unfold use_time_management.
  rewrite orb_true_iff, !to_bool_true. reflexivity.
Qed.

(** C10: a default-constructed [LimitsType] has zero in both clock times,
    both increments, [npmsec], [movetime], [movestogo], [depth], [mate],
    [perft], [infinite] and [nodes], and no [searchmoves]; so
    [use_time_management()] is false on it.  [startTime] is whatever the
    storage held. *)
Theorem LimitsType_ctor_fields `{TypesH} (indeterminate : TimePoint) :
  let l := LimitsType_ctor indeterminate in
  (forall c, time l c = 0) /\
  (forall c, inc l c = 0) /\
  npmsec l = 0 /\ movetime l = 0 /\
  movestogo l = 0 /\ depth l = 0 /\ mate l = 0 /\ perft l = 0 /\ infinite l = 0 /\
  nodes l = 0 /\
  searchmoves l = [] /\
  use_time_management l = false /\
  startTime l = indeterminate.
Proof. cbn. by split_and!. Qed.

(** ** The pool's counters *)

Section Accumulate.
Context `{TypesH}.

Lemma wrap64_add_l a b : wrap64 (wrap64 a + b) = wrap64 (a + b).
Proof. unfold wrap64. apply Zplus_mod_idemp_l. Qed.

Lemma accumulate_loop (member : Thread -> Z) (ths : list Thread) (sum : Z) :
  fold_left (fun sum th => wrap64 (sum + member th)) ths (wrap64 sum) =
  wrap64 (sum + foldr Z.add 0 (member <$> ths)).
Proof.
  revert sum. induction ths as [|th ths IH]; intros sum; csimpl.
  - by rewrite Z.add_0_r.
  - rewrite wrap64_add_l, IH. f_equal. lia.
Qed.

Lemma accumulate_total (member : Thread -> Z) (p : ThreadPool) :
  accumulate member p = counter_total member p mod 2 ^ 64.
Proof.
  unfold accumulate, counter_total.
  change 0 with (wrap64 0) at 1. by rewrite accumulate_loop.
Qed.

Lemma counter_total_nonneg (member : Thread -> Z) (p : ThreadPool) :
  Forall (fun th => is_uint64 (member th)) (threads p) -> 0 <= counter_total member p.
Proof.
  unfold counter_total, is_uint64.
  induction 1 as [|th ths Hth _ IH]; csimpl; lia.
Qed.

Lemma accumulate_exact (member : Thread -> Z) (p : ThreadPool) :
  Forall (fun th => is_uint64 (member th)) (threads p) ->
  counter_total member p < 2 ^ 64 ->
  accumulate member p = counter_total member p.
Proof.
  intros Hrange Hfits. rewrite accumulate_total.
  apply Z.mod_small. split; [by apply counter_total_nonneg|done].
Qed.

End Accumulate.

(** C4: [nodes_searched()] is the sum of the threads' [nodes] counters and
    [tb_hits()] the sum of their [tbHits] counters, each computed in
    [uint64_t]: the sum modulo 2^64, which is the sum itself whenever that
    fits 64 bits.  The loop takes no lock and loads the counters one after
    the other. *)
Theorem nodes_searched_tb_hits_sum `{TypesH} (p : ThreadPool) :
  nodes_searched p = counter_total Thread_nodes p mod 2 ^ 64 /\
  tb_hits p = counter_total Thread_tbHits p mod 2 ^ 64 /\
  (Forall (fun th => is_uint64 (Thread_nodes th)) (threads p) ->
   counter_total Thread_nodes p < 2 ^ 64 ->
   nodes_searched p = counter_total Thread_nodes p) /\
  (Forall (fun th => is_uint64 (Thread_tbHits th)) (threads p) ->
   counter_total Thread_tbHits p < 2 ^ 64 ->
   tb_hits p = counter_total Thread_tbHits p).
Proof.
  split_and!.
  - apply accumulate_total.
  - apply accumulate_total.
  - apply accumulate_exact.
  - apply accumulate_exact.
Qed.

(** [accumulate] does not depend on the order of the [threads] vector. *)
Theorem accumulate_order_irrelevant `{TypesH} (member : Thread -> Z)
    (p p' : ThreadPool) :
  threads p ≡ₚ threads p' -> accumulate member p = accumulate member p'.
Proof.
  intros Hp. rewrite !accumulate_total. f_equal. unfold counter_total.
  induction Hp as [|th l l' _ IH|th th' l|l l' l'' _ IH1 _ IH2]; csimpl; lia.
Qed.

Lemma accumulate_order_witness :
  threads toy_pool2 ≡ₚ threads toy_pool2_swapped /\
  accumulate Thread_nodes toy_pool2 = accumulate Thread_nodes toy_pool2_swapped.
Proof.
  assert (threads toy_pool2 ≡ₚ threads toy_pool2_swapped) as Hp
    by apply Permutation_swap.
  split; [exact Hp|].
  exact (@accumulate_order_irrelevant toy_types Thread_nodes _ _ Hp).
Defined.

(** *** The loop next to running workers *)

Lemma Zsum_app l1 l2 : Zsum (l1 ++ l2) = Zsum l1 + Zsum l2.
Proof. unfold Zsum. induction l1 as [|x l1 IH]; simpl; lia. Qed.

Lemma Zsum_le l1 l2 : Forall2 Z.le l1 l2 -> Zsum l1 <= Zsum l2.
Proof. unfold Zsum. induction 1; simpl; lia. Qed.

Lemma Zsum_nonneg l : Forall (fun z => 0 <= z) l -> 0 <= Zsum l.
Proof. unfold Zsum. induction 1; simpl; lia. Qed.

Lemma Forall2_le_refl (l : list Z) : Forall2 Z.le l l.
Proof. induction l; constructor; [lia|done]. Qed.

Lemma Forall2_le_count (mem : list Z) k v :
  mem !! k = Some v -> Forall2 Z.le mem (<[k := v + 1]> mem).
Proof.
  intros Hk. apply Forall2_same_length_lookup. split; [by rewrite length_insert|].
  intros i x y Hx Hy. destruct (decide (k = i)) as [->|Hne].
  - rewrite list_lookup_insert_eq in Hy by by eapply lookup_lt_Some.
    rewrite Hk in Hx. injection Hx as <-. injection Hy as <-. lia.
  - rewrite list_lookup_insert_ne in Hy by done.
    rewrite Hx in Hy. injection Hy as <-. lia.
Qed.

(** What holds in every state the loop reaches from its start over the
    counters [mem0]: the counters have only grown, and [sum] is (modulo
    2^64) a number between the sum of the first [acc_next] counters as they
    were at the start and as they are now. *)
Lemma acc_reachable_inv mem0 st :
  rtc acc_step (mkAcc mem0 0 0) st ->
  Forall2 Z.le mem0 (acc_mem st) /\
  (acc_next st <= length mem0)%nat /\
  exists real,
    acc_sum st = wrap64 real /\
    Zsum (take (acc_next st) mem0) <= real <= Zsum (take (acc_next st) (acc_mem st)).
Proof.
  revert st. apply rtc_ind_r.
  - simpl. split_and!; [apply Forall2_le_refl|lia|].
    exists 0. split; [reflexivity|]. unfold Zsum. simpl. lia.
  - intros st st' _ Hstep (Hmono & Hnext & real & Hsum & Hlo & Hhi).
    destruct Hstep as [mem i sum v Hv|mem i sum k v Hk Hfits]; simpl in *.
    + destruct (Forall2_lookup_r _ _ _ _ _ Hmono Hv) as (v0 & Hv0 & Hle).
      split_and!; [done|by eapply lookup_lt_Some|].
      exists (real + v). split; [by rewrite Hsum, wrap64_add_l|].
      rewrite (take_S_r _ _ _ Hv0), (take_S_r _ _ _ Hv), !Zsum_app.
      unfold Zsum at 2 4. simpl. lia.
    + pose proof (Forall2_le_count mem k v Hk) as Hgrow.
      split_and!; [|done|].
      * apply Forall2_same_length_lookup. split.
        { rewrite length_insert. by eapply Forall2_length. }
        intros j x y Hx Hy.
        destruct (Forall2_lookup_l _ _ _ _ _ Hmono Hx) as (z & Hz & Hxz).
        pose proof (Forall2_lookup_lr _ _ _ _ _ _ Hgrow Hz Hy). lia.
      * exists real. split; [done|]. split; [done|].
        etrans; [exact Hhi|]. apply Zsum_le. by apply Forall2_take.
Qed.

(** Whatever the workers count while [accumulate] runs, the value it returns
    lies between the sum of the counters when it started and their sum when
    it returned (as long as that fits 64 bits); it need not be either. *)
Theorem accumulate_interleaved `{TypesH} (member : Thread -> Z) (p : ThreadPool)
    (mem1 : list Z) (s : Z) :
  Forall (fun th => is_uint64 (member th)) (threads p) ->
  rtc acc_step (mkAcc (member <$> threads p) 0 0)
               (mkAcc mem1 (length (threads p)) s) ->
  Zsum mem1 < 2 ^ 64 ->
  counter_total member p <= s <= Zsum mem1.
Proof.
  intros Hrange Hrun Hfits.
  destruct (acc_reachable_inv _ _ Hrun) as (Hmono & _ & real & Hsum & Hlo & Hhi).
  simpl in *.
  pose proof (Forall2_length _ _ _ Hmono) as Hlen. rewrite length_fmap in Hlen.
  rewrite take_ge in Hlo by (rewrite length_fmap; lia).
  rewrite take_ge in Hhi by lia.
  pose proof (counter_total_nonneg member p Hrange) as Hnn.
  unfold counter_total in *. fold (Zsum (member <$> threads p)) in *.
  rewrite Hsum. unfold wrap64. rewrite Z.mod_small by lia. lia.
Qed.

Lemma accumulate_interleaved_witness :
  Forall (fun th => is_uint64 (Thread_nodes th)) (threads toy_pool2) /\
  rtc acc_step (mkAcc (Thread_nodes <$> threads toy_pool2) 0 0)
               (mkAcc [1; 42] (length (threads toy_pool2)) 42) /\
  Zsum [1; 42] < 2 ^ 64 /\
  counter_total Thread_nodes toy_pool2 <= 42 <= Zsum [1; 42].
Proof.
  assert (Forall (fun th => is_uint64 (Thread_nodes th)) (threads toy_pool2)) as Hrange.
  { repeat constructor; unfold is_uint64; simpl; lia. }
  assert (rtc acc_step (mkAcc (Thread_nodes <$> threads toy_pool2) 0 0)
                       (mkAcc [1; 42] (length (threads toy_pool2)) 42)) as Hrun.
  { eapply rtc_l; [exact (acc_load [0; 41] 0 0 0 eq_refl)|].
    eapply rtc_l; [exact (acc_count [0; 41] 1 0 0 0 eq_refl eq_refl)|].
    eapply rtc_l; [exact (acc_count [1; 41] 1 0 1 41 eq_refl eq_refl)|].
    eapply rtc_l; [exact (acc_load [1; 42] 1 0 42 eq_refl)|].
    apply rtc_refl. }
  assert (Zsum [1; 42] < 2 ^ 64) as Hfits by reflexivity.
  split; [exact Hrange|]. split; [exact Hrun|]. split; [exact Hfits|].
  exact (@accumulate_interleaved toy_types Thread_nodes toy_pool2 [1; 42] 42
           Hrange Hrun Hfits).
Defined.

(** A freshly constructed RootMove equals exactly the move it was constructed
    from, and two freshly constructed RootMoves compare equivalent whatever
    their moves. *)
Theorem RootMove_ctor_compare `{TypesH} (i j : Value) (m m' : Move) :
  RootMove_eq_Move (RootMove_ctor i m) m' = Some (bool_decide (m = m')) /\
  RootMove_lt (RootMove_ctor i m) (RootMove_ctor j m') = false.
Proof.
  split; [reflexivity|]. apply RootMove_lt_false. simpl. lia.
Qed.

(** ** The stop flag within one search session *)

Section StopFlag.
Context `{Collaborators}.
Variable indeterminate : Value.

Lemma start_thinking_clears p pos lim :
  stop (start_thinking indeterminate p pos lim) = false.
Proof. reflexivity. Qed.

(** One step of the session either leaves the flag or raises it. *)
Lemma pool_step_stop p ev :
  in_session ev ->
  stop (pool_step indeterminate p ev) = stop p \/
  (stop p = false /\ stop (pool_step indeterminate p ev) = true).
Proof.
  intros Hev. destruct ev; simpl in *; try tauto; destruct (stop p); auto.
Qed.

Lemma pool_step_stays_raised p ev :
  in_session ev -> stop p = true -> stop (pool_step indeterminate p ev) = true.
Proof. intros Hev Hp. destruct (pool_step_stop p ev Hev) as [->|[? ?]]; congruence. Qed.

Lemma pool_trace_head p evs : pool_trace indeterminate p evs !! 0%nat = Some p.
Proof. by destruct evs. Qed.

Lemma pool_trace_next p evs i si sj :
  pool_trace indeterminate p evs !! i = Some si ->
  pool_trace indeterminate p evs !! S i = Some sj ->
  exists ev, evs !! i = Some ev /\ sj = pool_step indeterminate si ev.
Proof.
  revert p i. induction evs as [|ev evs IH]; intros p i Hi Hj.
  - destruct i; discriminate Hj.
  - destruct i as [|i]; simpl in *.
    + injection Hi as <-. rewrite pool_trace_head in Hj. injection Hj as <-. eauto.
    + eapply IH; eauto.
Qed.

Lemma pool_trace_raised p evs :
  Forall in_session evs -> stop p = true ->
  Forall (fun s => stop s = true) (pool_trace indeterminate p evs).
Proof.
  intros Hevs. revert p. induction Hevs as [|ev evs Hev _ IH]; intros p Hp; simpl.
  - by constructor.
  - constructor; [done|]. apply IH. by apply pool_step_stays_raised.
Qed.

Lemma pool_trace_suffix p evs i si :
  pool_trace indeterminate p evs !! i = Some si ->
  drop i (pool_trace indeterminate p evs) = pool_trace indeterminate si (drop i evs).
Proof.
  revert p i. induction evs as [|ev evs IH]; intros p i Hi.
  - destruct i as [|i]; [|discriminate Hi]. injection Hi as <-. reflexivity.
  - destruct i as [|i]; simpl in *.
    + injection Hi as <-. reflexivity.
    + by apply IH.
Qed.

Lemma pool_trace_monotone p evs i j si sj :
  Forall in_session evs -> (i <= j)%nat ->
  pool_trace indeterminate p evs !! i = Some si ->
  pool_trace indeterminate p evs !! j = Some sj ->
  stop si = true -> stop sj = true.
Proof.
  intros Hevs Hij Hi Hj Hraised.
  assert (drop i (pool_trace indeterminate p evs) !! (j - i)%nat = Some sj) as Hd.
  { rewrite lookup_drop. replace (i + (j - i))%nat with j by lia. exact Hj. }
  rewrite (pool_trace_suffix _ _ _ _ Hi) in Hd.
  assert (Forall in_session (drop i evs)) as Hevs' by by apply Forall_drop.
  pose proof (pool_trace_raised si _ Hevs' Hraised) as Hall.
  rewrite Forall_lookup in Hall. by eapply Hall.
Qed.

End StopFlag.

(** C6: within one search session the stop flag is monotone.
    [start_thinking] leaves it false; every later event of the session
    either leaves it as it is or takes it from false to true; once true it
    is true in every later state of the session; the next [start_thinking]
    is what clears it again. *)
Theorem stop_flag_monotone `{Collaborators} (indeterminate : Value)
    (p0 : ThreadPool) (pos : Position) (lim : LimitsType) (evs : list PoolEvent) :
  Forall in_session evs ->
  let tr := pool_trace indeterminate (start_thinking indeterminate p0 pos lim) evs in
  (exists s0, tr !! 0%nat = Some s0 /\ stop s0 = false) /\
  (forall i si sj,
     tr !! i = Some si -> tr !! S i = Some sj ->
     stop sj = stop si \/ (stop si = false /\ stop sj = true)) /\
  (forall i j si sj,
     (i <= j)%nat -> tr !! i = Some si -> tr !! j = Some sj ->
     stop si = true -> stop sj = true) /\
  (forall s pos' lim',
     s ∈ tr -> stop (pool_step indeterminate s (EvStartThinking pos' lim')) = false).
Proof.
  intros Hevs tr. split_and!.
  - eexists. split; [apply pool_trace_head|reflexivity].
  - intros i si sj Hi Hj.
    destruct (pool_trace_next _ _ _ _ _ _ Hi Hj) as (ev & Hev & ->).
    apply pool_step_stop.
    rewrite Forall_lookup in Hevs. by eapply Hevs.
  - intros i j si sj. by apply pool_trace_monotone.
  - reflexivity.
Qed.

(** ** One worker's search session *)

Section Session.
Context `{CollaboratorsOk}.
Implicit Types rm x e : RootMove.
Implicit Types l seen todo : RootMoves.

Lemma stop_never_observed t : stop_observed None t = false.
Proof. reflexivity. Qed.

Lemma updated_entry_rooted pos rm m v line alpha beta k :
  rooted pos rm -> pv rm = m :: line ->
  forall line', rooted pos (updated_entry rm m v line' alpha beta k).
Proof.
  intros (m' & l' & Hpv & Hm) Hpv' line'. unfold updated_entry.
  rewrite Hpv in Hpv'. injection Hpv' as -> ->.
  destruct (_ || _); [by exists m, line'|by exists m, line].
Qed.

Lemma updated_entry_in_range rm m v line alpha beta k :
  - VALUE_INFINITE < v < VALUE_INFINITE ->
  in_range (updated_entry rm m v line alpha beta k).
Proof.
  intros Hv. pose proof VALUE_INFINITE_pos.
  unfold updated_entry, in_range. destruct (_ || _); simpl; lia.
Qed.

(** The move loop as one equation per case. *)
Lemma root_moves_loop_cons stop_at pos d beta seen rm rest tb t alpha best k m line :
  pv rm = m :: line ->
  root_moves_loop stop_at pos d beta seen (rm :: rest) tb t alpha best k =
  let r := child_search tb pos m (d - 1) alpha beta k in
  if stop_observed stop_at t
  then Some (mkRootResult (mkSearch r.1.1 (S t) (seen ++ rm :: rest)) best true)
  else
    let rm' := updated_entry rm m r.1.2 r.2 alpha beta k in
    if (best <? r.1.2) && (alpha <? r.1.2) && (beta <=? r.1.2)
    then Some (mkRootResult (mkSearch r.1.1 (S t) (seen ++ rm' :: rest)) r.1.2 false)
    else
      root_moves_loop stop_at pos d beta (seen ++ [rm']) rest r.1.1 (S t)
        (if (best <? r.1.2) && (alpha <? r.1.2) then r.1.2 else alpha)
        (Z.max best r.1.2) (S k).
Proof.
  intros Hpv. cbn [root_moves_loop]. rewrite Hpv.
  by destruct (child_search tb pos m (d - 1) alpha beta k) as [[tb' v] line'].
Qed.

(** The loop always has a result on rooted entries, and leaves rooted
    entries with scores in range, as many as before. *)
Lemma root_moves_loop_safe stop_at pos d beta todo :
  forall seen tb t alpha best k,
    Forall (rooted pos) todo -> Forall (rooted pos) seen ->
    Forall in_range todo -> Forall in_range seen ->
    exists r,
      root_moves_loop stop_at pos d beta seen todo tb t alpha best k = Some r /\
      Forall (rooted pos) (entries (after r)) /\
      Forall in_range (entries (after r)) /\
      length (entries (after r)) = (length seen + length todo)%nat.
Proof.
  induction todo as [|rm rest IH]; intros seen tb t alpha best k Hrt Hrd Hit Hid.
  - eexists. split; [reflexivity|]. simpl. by rewrite Nat.add_0_r.
  - apply Forall_cons in Hrt as [Hrm Hrt]. apply Forall_cons in Hit as [Him Hit].
    destruct Hrm as (m & line & Hpv & Hm).
    rewrite (root_moves_loop_cons _ _ _ _ _ _ _ _ _ _ _ _ m line Hpv). cbv zeta.
    pose proof (child_search_bounded tb pos m (d - 1) alpha beta k) as Hv.
    set (r := child_search tb pos m (d - 1) alpha beta k) in *.
    assert (rooted pos (updated_entry rm m r.1.2 r.2 alpha beta k)) as Hr'.
    { eapply updated_entry_rooted; [by exists m, line|done]. }
    assert (in_range (updated_entry rm m r.1.2 r.2 alpha beta k)) as Hi'.
    { by apply updated_entry_in_range. }
    destruct (stop_observed stop_at t).
    { eexists. split; [reflexivity|]. simpl. split_and!.
      - apply Forall_app. split; [done|]. constructor; [by exists m, line|done].
      - apply Forall_app. split; [done|]. by constructor.
      - by rewrite length_app. }
    destruct (_ && _ && _).
    { eexists. split; [reflexivity|]. simpl. split_and!.
      - apply Forall_app. split; [done|]. by constructor.
      - apply Forall_app. split; [done|]. by constructor.
      - by rewrite length_app. }
    edestruct (IH (seen ++ [updated_entry rm m r.1.2 r.2 alpha beta k]))
      as (r' & Hr'eq & ? & ? & Hlen); [done| |done| |].
    + apply Forall_app. split; [done|]. by constructor.
    + apply Forall_app. split; [done|]. by constructor.
    + exists r'. split; [exact Hr'eq|]. split_and!; [done|done|].
      rewrite Hlen, length_app. simpl. lia.
Qed.

(** A session in which the flag is never raised is never cancelled. *)
Lemma root_moves_loop_not_stopped pos d beta todo :
  forall seen tb t alpha best k r,
    root_moves_loop None pos d beta seen todo tb t alpha best k = Some r ->
    stopped r = false.
Proof.
  induction todo as [|rm rest IH]; intros seen tb t alpha best k r Hr.
  - injection Hr as <-. reflexivity.
  - destruct (pv rm) as [|m line] eqn:Hpv.
    { cbn [root_moves_loop] in Hr. rewrite Hpv in Hr. discriminate Hr. }
    rewrite (root_moves_loop_cons _ _ _ _ _ _ _ _ _ _ _ _ m line Hpv) in Hr.
    cbv zeta in Hr. rewrite stop_never_observed in Hr.
    destruct (_ && _ && _).
    + injection Hr as <-. reflexivity.
    + by eapply IH.
Qed.

(** The value a completed scan returns is a score some move obtained, so it
    is strictly inside the value range. *)
Lemma root_moves_loop_best stop_at pos d beta todo :
  forall seen tb t alpha best k r,
    root_moves_loop stop_at pos d beta seen todo tb t alpha best k = Some r ->
    stopped r = false ->
    best < VALUE_INFINITE ->
    todo <> [] \/ - VALUE_INFINITE < best ->
    - VALUE_INFINITE < bestValue r < VALUE_INFINITE.
Proof.
  induction todo as [|rm rest IH]; intros seen tb t alpha best k r Hr Hns Hb Hne.
  - injection Hr as <-. simpl. destruct Hne as [?|?]; [done|lia].
  - destruct (pv rm) as [|m line] eqn:Hpv.
    { cbn [root_moves_loop] in Hr. rewrite Hpv in Hr. discriminate Hr. }
    rewrite (root_moves_loop_cons _ _ _ _ _ _ _ _ _ _ _ _ m line Hpv) in Hr.
    cbv zeta in Hr.
    pose proof (child_search_bounded tb pos m (d - 1) alpha beta k) as Hv.
    set (c := child_search tb pos m (d - 1) alpha beta k) in *.
    destruct (stop_observed stop_at t).
    { injection Hr as <-. discriminate Hns. }
    destruct (_ && _ && _).
    + injection Hr as <-. simpl. exact Hv.
    + eapply IH; [exact Hr|done|lia|right; lia].
Qed.

(** A scan that ends inside the window [(alpha0, beta)] leaves the entries
    crowned by the value it returns.  [alpha] is the running lower bound,
    [best] the best score so far. *)
Lemma root_moves_loop_exact stop_at pos d alpha0 beta todo :
  - VALUE_INFINITE <= alpha0 ->
  forall seen tb t alpha best k r,
    alpha = Z.max alpha0 best ->
    - VALUE_INFINITE <= best ->
    (1 <= k)%nat ->
    (k = 1%nat -> best <= alpha0) ->
    (forall x, x ∈ seen -> score x <= best) ->
    (alpha0 < best -> crowned best seen) ->
    root_moves_loop stop_at pos d beta seen todo tb t alpha best k = Some r ->
    stopped r = false ->
    alpha0 < bestValue r < beta ->
    crowned (bestValue r) (entries (after r)).
Proof.
  intros Ha0.
  induction todo as [|rm rest IH];
    intros seen tb t alpha best k r Halpha Hbest Hk Hfirst Hle Hcr Hr Hns Hwin.
  - injection Hr as <-. simpl in *. apply Hcr. lia.
  - destruct (pv rm) as [|m line] eqn:Hpv.
    { cbn [root_moves_loop] in Hr. rewrite Hpv in Hr. discriminate Hr. }
    rewrite (root_moves_loop_cons _ _ _ _ _ _ _ _ _ _ _ _ m line Hpv) in Hr.
    cbv zeta in Hr.
    set (c := child_search tb pos m (d - 1) alpha beta k) in *.
    set (v := c.1.2) in *.
    destruct (stop_observed stop_at t).
    { injection Hr as <-. discriminate Hns. }
    destruct (Z.ltb_spec alpha v) as [Hav|Hav].
    + (* the move beats alpha, hence the best score so far *)
      assert ((best <? v) = true) as Hbv by (apply Z.ltb_lt; lia).
      rewrite Hbv in Hr. cbn [andb] in Hr.
      destruct (Z.leb_spec beta v) as [Hcut|Hcut].
      { injection Hr as <-. simpl in Hwin. lia. }
      eapply IH in Hr; [exact Hr|lia|lia|lia|lia| | |done|done].
      * intros x [Hx| ->%list_elem_of_singleton]%elem_of_app.
        -- specialize (Hle x Hx). lia.
        -- unfold updated_entry. destruct (_ || _) eqn:Hc; simpl; lia.
      * intros _. replace (Z.max best v) with v by lia.
        assert (updated_entry rm m v c.2 alpha beta k
                = record_score rm m v c.2 alpha beta) as Hrec.
        { unfold updated_entry.
          destruct (Z.ltb_spec alpha v); [|lia]. by rewrite orb_true_r. }
        rewrite Hrec. split.
        -- eexists. split; [apply elem_of_app; right; apply list_elem_of_singleton; reflexivity|].
           reflexivity.
        -- intros x [Hx| ->%list_elem_of_singleton]%elem_of_app.
           ++ right. specialize (Hle x Hx). simpl. lia.
           ++ left. split; [reflexivity|]. unfold exact_score. simpl.
              destruct (Z.leb_spec beta v); [lia|].
              destruct (Z.leb_spec v alpha); [lia|]. done.
    + (* the move does not beat alpha *)
      assert ((alpha <? v) = false) as Hav' by (apply Z.ltb_ge; lia).
      rewrite andb_false_r in Hr. cbn [andb] in Hr.
      eapply IH in Hr; [exact Hr|lia|lia|lia|lia| | |done|done].
      * intros x [Hx| ->%list_elem_of_singleton]%elem_of_app.
        -- specialize (Hle x Hx). lia.
        -- unfold updated_entry. destruct (_ || _); simpl; lia.
      * intros Hgt. assert (v <= best) as Hvb by lia.
        replace (Z.max best v) with best in * by lia.
        destruct (Hcr Hgt) as [(e & He & Hse) Hall].
        assert (updated_entry rm m v c.2 alpha beta k = demote rm) as Hdem.
        { unfold updated_entry. rewrite Hav'.
          destruct (Nat.eqb_spec k 1) as [Hk1|Hk1]; [specialize (Hfirst Hk1); lia|].
          reflexivity. }
        rewrite Hdem. split.
        -- exists e. split; [apply elem_of_app; by left|done].
        -- intros x [Hx| ->%list_elem_of_singleton]%elem_of_app; [by apply Hall|].
           right. simpl. lia.
Qed.

(** After the sort, the first of crowned entries carries an exact score. *)
Lemma crowned_sorted_head_exact b l : crowned b l -> head_exact (stable_sort l).
Proof.
  intros [(e & He & Hse) Hall].
  destruct (stable_sort l) as [|h rest] eqn:Hs.
  { rewrite <- (stable_sort_perm l), Hs in He. by apply not_elem_of_nil in He. }
  exists h, rest. split; [reflexivity|].
  assert (h ∈ l) as Hh.
  { rewrite <- (stable_sort_perm l), Hs. apply list_elem_of_here. }
  pose proof (stable_sort_head_best l h rest Hs e He) as Hbest.
  apply RootMove_lt_false in Hbest.
  destruct (Hall h Hh) as [[_ Hex]|Hlow]; [exact Hex|lia].
Qed.

Lemma sorted_entries_inv pos tb t l :
  l <> [] -> Forall (rooted pos) l -> Forall in_range l ->
  session_inv pos (mkSearch tb t (stable_sort l)).
Proof.
  intros Hne Hr Hi. split; simpl.
  - intros Hnil. apply Hne, Permutation_nil_r. rewrite <- Hnil.
    symmetry. apply stable_sort_perm.
  - by rewrite stable_sort_perm.
  - by rewrite stable_sort_perm.
  - apply stable_sort_Sorted.
Qed.

(** One search of the root in the window of half-width [delta] around
    [center], followed by the sort. *)
Lemma root_search_window stop_at pos d center delta s :
  entries s <> [] -> Forall (rooted pos) (entries s) -> Forall in_range (entries s) ->
  - VALUE_INFINITE <= center <= VALUE_INFINITE ->
  let alpha := Z.max (center - delta) (- VALUE_INFINITE) in
  let beta := Z.min (center + delta) VALUE_INFINITE in
  exists r,
    root_search stop_at pos d alpha beta s = Some r /\
    session_inv pos (mkSearch (tables (after r)) (clock (after r))
                              (stable_sort (entries (after r)))) /\
    (stopped r = false -> (bestValue r <=? alpha) || (beta <=? bestValue r) = false ->
     head_exact (stable_sort (entries (after r)))) /\
    (stopped r = false -> 2 * VALUE_INFINITE <= delta ->
     (bestValue r <=? alpha) || (beta <=? bestValue r) = false) /\
    (stop_at = None -> stopped r = false).
Proof.
  intros Hne Hr Hi Hc alpha beta. pose proof VALUE_INFINITE_pos as Hpos.
  unfold root_search.
  destruct (root_moves_loop_safe stop_at pos d beta (entries s) [] (tables s) (clock s)
              alpha (- VALUE_INFINITE) 1%nat) as (r & Hreq & Hrr & Hri & Hlen);
    [done|constructor|done|constructor|].
  exists r. split; [exact Hreq|]. split_and!.
  - apply sorted_entries_inv; [|done|done].
    intros Hnil. rewrite Hnil in Hlen. simpl in Hlen.
    destruct (entries s); [done|discriminate Hlen].
  - intros Hns Hwin. apply orb_false_iff in Hwin as [Hlo Hhi].
    apply Z.leb_gt in Hlo, Hhi.
    apply (crowned_sorted_head_exact (bestValue r)).
    eapply (root_moves_loop_exact stop_at pos d alpha beta (entries s));
      [lia| | | | | | |exact Hreq|exact Hns|lia].
    + lia.
    + lia.
    + lia.
    + lia.
    + intros x Hx. by apply not_elem_of_nil in Hx.
    + lia.
  - intros Hns Hfull.
    pose proof (root_moves_loop_best _ _ _ _ _ _ _ _ _ _ _ r Hreq Hns) as Hb.
    destruct Hb as [Hb1 Hb2]; [lia|by left|].
    apply orb_false_iff. split; apply Z.leb_gt; lia.
  - intros ->. by eapply root_moves_loop_not_stopped.
Qed.

Lemma aspiration_unfold fuel stop_at pos d center delta s :
  aspiration (S fuel) stop_at pos d center delta s =
  let alpha := Z.max (center - delta) (- VALUE_INFINITE) in
  let beta := Z.min (center + delta) VALUE_INFINITE in
  match root_search stop_at pos d alpha beta s with
  | None => None
  | Some r =>
    let s' := mkSearch (tables (after r)) (clock (after r))
                       (stable_sort (entries (after r))) in
    if stopped r then Some (s', true)
    else if (bestValue r <=? alpha) || (beta <=? bestValue r)
    then aspiration fuel stop_at pos d center (aspiration_ratio * delta) s'
    else Some (s', false)
  end.
Proof. reflexivity. Qed.

(** The aspiration loop has a result once the fuel covers the widenings
    that are left; the result keeps the session invariant; when the loop
    was not cancelled its first entry carries an exact score. *)
Lemma aspiration_spec stop_at pos d center :
  - VALUE_INFINITE <= center <= VALUE_INFINITE ->
  forall fuel delta s,
    entries s <> [] -> Forall (rooted pos) (entries s) -> Forall in_range (entries s) ->
    1 <= delta ->
    2 * VALUE_INFINITE <= Z.of_nat fuel + delta ->
    exists s' b,
      aspiration (S fuel) stop_at pos d center delta s = Some (s', b) /\
      session_inv pos s' /\
      (b = false -> head_exact (entries s')) /\
      (stop_at = None -> b = false).
Proof.
  intros Hc. pose proof aspiration_ratio_ge as Hratio.
  induction fuel as [|fuel IH]; intros delta s Hne Hr Hi Hd Hfuel;
    rewrite aspiration_unfold; cbv zeta;
    destruct (root_search_window stop_at pos d center delta s Hne Hr Hi Hc)
      as (r & -> & Hinv & Hexact & Hfull & Hnone);
    destruct (stopped r) eqn:Hst.
  - eexists _, true. split_and!; [reflexivity|done|done|].
    intros Hn. specialize (Hnone Hn). discriminate Hnone.
  - rewrite Hfull; [|done|lia].
    eexists _, false. split_and!; [reflexivity|done| |done].
    intros _. apply Hexact; [done|]. apply Hfull; [done|lia].
  - eexists _, true. split_and!; [reflexivity|done|done|].
    intros Hn. specialize (Hnone Hn). discriminate Hnone.
  - destruct (_ || _) eqn:Hfail.
    + apply IH.
      * apply Hinv.
      * apply Hinv.
      * apply Hinv.
      * nia.
      * nia.
    + eexists _, false. split_and!; [reflexivity|done| |done].
      intros _. by apply Hexact.
Qed.

Lemma age_score_rooted pos rm : rooted pos rm -> rooted pos (age_score rm).
Proof. intros (m & line & Hpv & Hm). by exists m, line. Qed.

Lemma age_score_in_range rm : in_range rm -> in_range (age_score rm).
Proof. done. Qed.

Lemma age_score_exact l : head_exact l -> head_exact (age_score <$> l).
Proof. intros (rm & rest & -> & Hex). by exists (age_score rm), (age_score <$> rest). Qed.

Lemma iterative_deepening_unfold n stop_at pos d s :
  iterative_deepening (S n) stop_at pos d s =
  if stop_observed stop_at (clock s)
  then Some (mkSearch (tables s) (S (clock s)) (entries s))
  else
    let aged := age_score <$> entries s in
    let center := from_option previousScore (- VALUE_INFINITE) (head aged) in
    match aspiration aspiration_fuel stop_at pos d center aspiration_delta
            (mkSearch (tables s) (S (clock s)) aged) with
    | None => None
    | Some (s', true) => Some s'
    | Some (s', false) => iterative_deepening n stop_at pos (d + 1) s'
    end.
Proof. reflexivity. Qed.

(** The driver always has a result; it keeps the session invariant, and a
    session that is never cancelled keeps an exact score on its first
    entry. *)
Lemma iterative_deepening_spec stop_at pos n :
  forall d s,
    session_inv pos s ->
    exists s',
      iterative_deepening n stop_at pos d s = Some s' /\
      session_inv pos s' /\
      (stop_at = None -> head_exact (entries s) -> head_exact (entries s')).
Proof.
  pose proof VALUE_INFINITE_pos as Hpos. pose proof aspiration_delta_pos as Hdelta.
  induction n as [|n IH]; intros d s Hinv.
  - exists s. by split_and!.
  - rewrite iterative_deepening_unfold.
    destruct (stop_observed stop_at (clock s)) eqn:Hobs.
    { eexists. split; [reflexivity|]. split; [|done].
      destruct Hinv. by split. }
    cbv zeta.
    destruct Hinv as [Hne Hr Hi Hs].
    set (aged := age_score <$> entries s).
    assert (aged <> []) as Hane.
    { unfold aged. by destruct (entries s). }
    assert (Forall (rooted pos) aged) as Har.
    { apply Forall_fmap. eapply Forall_impl; [exact Hr|]. apply age_score_rooted. }
    assert (Forall in_range aged) as Hai.
    { apply Forall_fmap. eapply Forall_impl; [exact Hi|]. apply age_score_in_range. }
    assert (- VALUE_INFINITE
            <= from_option previousScore (- VALUE_INFINITE) (head aged)
            <= VALUE_INFINITE) as Hc.
    { unfold aged. destruct (entries s) as [|h rest]; simpl; [lia|].
      apply Forall_cons in Hi as [Hh _]. exact Hh. }
    destruct (aspiration_spec stop_at pos d _ Hc (Z.to_nat (2 * VALUE_INFINITE))
                aspiration_delta (mkSearch (tables s) (S (clock s)) aged))
      as (s1 & b & Hasp & Hinv1 & Hex1 & Hnone); [done|done|done|done|lia|].
    unfold aspiration_fuel. rewrite Hasp.
    destruct b.
    + exists s1. split_and!; [done|done|].
      intros Hn _. specialize (Hnone Hn). discriminate Hnone.
    + destruct (IH (d + 1) s1 Hinv1) as (s' & Hs' & Hinv' & Hex').
      exists s'. split_and!; [done|done|].
      intros Hn _. apply Hex'; [done|]. by apply Hex1.
Qed.

(** The list [start_thinking] assigns: constructed entries, one per legal
    move that passes the restriction. *)
Lemma root_move_list_rooted indeterminate pos lim :
  Forall (rooted pos) (root_move_list indeterminate pos lim).
Proof.
  unfold root_move_list. apply Forall_fmap, Forall_forall.
  intros m [_ Hm]%list_elem_of_filter. by exists m, [].
Qed.

Lemma root_move_list_in_range indeterminate pos lim :
  Forall in_range (root_move_list indeterminate pos lim).
Proof.
  pose proof VALUE_INFINITE_pos.
  unfold root_move_list. apply Forall_fmap, Forall_forall.
  intros m _. unfold in_range. simpl. lia.
Qed.

Lemma ctor_list_Sorted indeterminate (ms : list Move) :
  Sorted RootMove_le (RootMove_ctor indeterminate <$> ms).
Proof.
  induction ms as [|m ms IH]; csimpl; [constructor|].
  constructor; [done|]. destruct ms; csimpl; constructor.
  apply RootMove_lt_false. simpl. lia.
Qed.

Lemma root_move_list_exact indeterminate pos lim :
  root_move_list indeterminate pos lim <> [] ->
  head_exact (root_move_list indeterminate pos lim).
Proof.
  unfold root_move_list.
  destruct (filter _ _) as [|m ms]; [done|]. intros _.
  by exists (RootMove_ctor indeterminate m), (RootMove_ctor indeterminate <$> ms).
Qed.

Lemma root_move_list_inv indeterminate pos lim tb :
  root_move_list indeterminate pos lim <> [] ->
  session_inv pos (mkSearch tb 0 (root_move_list indeterminate pos lim)).
Proof.
  intros Hne. split; simpl.
  - done.
  - apply root_move_list_rooted.
  - apply root_move_list_in_range.
  - apply ctor_list_Sorted.
Qed.

(** Without a restriction every legal move gets an entry. *)
Lemma root_move_list_unrestricted indeterminate pos lim :
  searchmoves lim = [] ->
  root_move_list indeterminate pos lim = RootMove_ctor indeterminate <$> legal_moves pos.
Proof.
  intros Hs. unfold root_move_list. f_equal.
  induction (legal_moves pos) as [|m ms IH]; [done|].
  rewrite filter_cons_True; [by rewrite IH|by left].
Qed.


(** A session over at least one root move: it has a result, the result
    keeps the session invariant, and when the flag is never raised the first
    entry carries an exact score. *)
Lemma think_spec indeterminate stop_at tb pos lim :
  root_move_list indeterminate pos lim <> [] ->
  exists s,
    think indeterminate stop_at tb pos lim = Some s /\
    session_inv pos s /\
    (stop_at = None -> head_exact (entries s)).
Proof.
  intros Hne. unfold think.
  destruct (root_move_list indeterminate pos lim) as [|rm rest] eqn:Hl; [done|].
  rewrite <- Hl in *.
  destruct (iterative_deepening_spec stop_at pos (depth_budget lim) 1
              (mkSearch tb 0 (root_move_list indeterminate pos lim)))
    as (s & Hs & Hinv & Hex).
  { by apply root_move_list_inv. }
  exists s. split_and!; [done|done|].
  intros Hn. apply Hex; [done|]. by apply root_move_list_exact.
Qed.

(** The first entry of a session state is its best: well formed, and
    nothing sorts before it. *)
Lemma session_inv_best pos s :
  session_inv pos s ->
  exists rm rest m line,
    entries s = rm :: rest /\ pv rm = m :: line /\ m ∈ legal_moves pos /\
    forall x, x ∈ entries s -> RootMove_lt x rm = false.
Proof.
  intros [Hne Hr Hi Hs].
  destruct (entries s) as [|rm rest]; [done|].
  pose proof Hr as Hr'. apply Forall_cons in Hr' as [(m & line & Hpv & Hm) _].
  exists rm, rest, m, line. split_and!; [done|done|done|].
  intros x Hx. apply Sorted_StronglySorted in Hs; [|apply _].
  apply StronglySorted_cons in Hs as [Hall _].
  apply elem_of_cons in Hx as [->|Hx]; [apply RootMove_lt_irrefl|].
  rewrite Forall_forall in Hall. by apply Hall.
Qed.

End Session.

(** ** Cancellation: what a cancelled session keeps *)

Section Cancellation.
Context `{Collaborators}.




















End Cancellation.

(** ** The claims about a search session *)

Lemma toy_engine_ok : @CollaboratorsOk toy_types toy_engine.
Proof.
  split.
  - reflexivity.
  - intros tb pos m d alpha beta k. simpl. unfold toy_value.
    pose proof (Z.mod_pos_bound (m * 37 + d * 11) 201). lia.
  - done.
  - done.
Qed.

(** C2: for every position with at least one legal move, a search under a
    depth-only limit of depth [D] returns a list whose first entry is rooted
    at a move that is legal in the position, and the score of that entry is
    exact: neither bound flag is set.  A depth-only limit sets no clock and
    no node budget, so nothing raises the stop flag ([stop_at] is [None]) and
    every depth is searched until it ends inside its window; this holds for
    every [D]. *)
Theorem depth_only_search_legal_exact `{CollaboratorsOk}
    (indeterminate : Value) (startTime0 : TimePoint) (tb : Tables)
    (pos : Position) (D : Depth) :
  legal_moves pos <> [] ->
  exists s rm rest m line,
    think indeterminate None tb pos (depth_only startTime0 D) = Some s /\
    entries s = rm :: rest /\
    pv rm = m :: line /\
    m ∈ legal_moves pos /\
    scoreLowerbound rm = false /\ scoreUpperbound rm = false.
Proof.
  intros Hlegal.
  destruct (think_spec indeterminate None tb pos (depth_only startTime0 D))
    as (s & Hs & Hinv & Hex).
  { rewrite root_move_list_unrestricted by reflexivity.
    by destruct (legal_moves pos). }
  destruct (session_inv_best pos s Hinv) as (rm & rest & m & line & He & Hpv & Hm & _).
  destruct (Hex eq_refl) as (rm' & rest' & He' & Hlo & Hup).
  rewrite He in He'. injection He' as <- <-.
  by exists s, rm, rest, m, line.
Qed.

Lemma depth_only_search_witness :
  @legal_moves toy_types toy_engine [1; 2; 3; 4] <> [] /\
  exists s rm rest m line,
    @think toy_types toy_engine 0 None 0%nat [1; 2; 3; 4] (@depth_only toy_types 0 3)
      = Some s /\
    entries s = rm :: rest /\
    pv rm = m :: line /\
    m ∈ @legal_moves toy_types toy_engine [1; 2; 3; 4] /\
    scoreLowerbound rm = false /\ scoreUpperbound rm = false.
Proof.
  split; [discriminate|].
  apply (@depth_only_search_legal_exact toy_types toy_engine toy_engine_ok).
  discriminate.
Defined.

(** The other failure mode (§7(b)): when the [searchmoves] restriction
    excludes every legal move there is no root move, nothing is searched
    and the session returns the empty list, whatever the stop flag does. *)
Lemma restricted_to_no_move_searches_nothing `{Collaborators}
    (indeterminate : Value) (stop_at : option nat) (tb : Tables)
    (pos : Position) (lim : LimitsType) :
  (forall m, m ∈ legal_moves pos -> ~ (searchmoves lim = [] \/ m ∈ searchmoves lim)) ->
  think indeterminate stop_at tb pos lim = Some (mkSearch tb 0 []).
Proof.
  intros Hnone. unfold think, root_move_list.
  destruct (filter _ (legal_moves pos)) as [|m ms] eqn:Hf; [reflexivity|].
  assert (m ∈ filter (fun m => searchmoves lim = [] \/ m ∈ searchmoves lim)
                (legal_moves pos)) as Hin by (rewrite Hf; apply list_elem_of_here).
  apply list_elem_of_filter in Hin as [Hkeep Hm]. by destruct (Hnone m Hm).
Qed.




Lemma stop_flag_monotone_witness :
  Forall in_session toy_events /\
  let tr := @pool_trace toy_types toy_engine 0
              (@start_thinking toy_types toy_engine 0 toy_pool [1; 2]
                 (@LimitsType_ctor toy_types 0)) toy_events in
  (exists s0, tr !! 0%nat = Some s0 /\ stop s0 = false) /\
  (forall i si sj,
     tr !! i = Some si -> tr !! S i = Some sj ->
     stop sj = stop si \/ (stop si = false /\ stop sj = true)) /\
  (forall i j si sj,
     (i <= j)%nat -> tr !! i = Some si -> tr !! j = Some sj ->
     stop si = true -> stop sj = true) /\
  (forall s pos' lim',
     s ∈ tr ->
     stop (@pool_step toy_types toy_engine 0 s (EvStartThinking pos' lim')) = false).
Proof.
  assert (Forall in_session toy_events) as Hevs by (repeat constructor).
  split; [exact Hevs|].
  exact (@stop_flag_monotone toy_types toy_engine 0 toy_pool [1; 2]
           (@LimitsType_ctor toy_types 0) toy_events Hevs).
Defined.

(** ** The pool in memory: accessors, the loop over the pointers, the destructor *)

Section PoolMemory.
Context `{TypesH}.
Implicit Types st : PoolStore.
Implicit Types heap : gmap nat Thread.
Implicit Types log : list PoolCall.

Lemma freed_lookup_in heap (l : list nat) a :
  a ∈ l -> foldr delete heap l !! a = None.
Proof.
  induction l as [|x l IH]; intros Ha; [by apply not_elem_of_nil in Ha|].
  simpl. destruct (decide (x = a)) as [->|Hne]; [apply lookup_delete_eq|].
  rewrite lookup_delete_ne by done.
  apply elem_of_cons in Ha as [->|Ha]; [done|by apply IH].
Qed.

Lemma freed_lookup_out heap (l : list nat) a :
  a ∉ l -> foldr delete heap l !! a = heap !! a.
Proof.
  induction l as [|x l IH]; intros Ha; [done|].
  apply not_elem_of_cons in Ha as [Hne Ha].
  simpl. rewrite lookup_delete_ne by done. by apply IH.
Qed.

(** One turn of the loop on a vector that ends with [a]. *)
Lemma delete_threads_snoc fuel heap b c (l : list nat) a log :
  delete_threads (S fuel) (mkPoolStore _ heap b c (l ++ [a])) log =
  match heap !! a with
  | None => Undefined
  | Some _ =>
    delete_threads fuel (mkPoolStore _ (delete a heap) b c l) (log ++ [CallDelete a])
  end.
Proof.
  cbn [delete_threads store_threads store_heap store_stop store_increaseDepth].
  rewrite length_app, Nat.add_comm. cbn [length Nat.add Nat.ltb Nat.leb].
  by rewrite last_snoc, removelast_last.
Qed.

Lemma delete_threads_nil fuel heap b c log :
  delete_threads fuel (mkPoolStore _ heap b c []) log
  = Done (mkPoolStore _ heap b c [], log).
Proof. by destruct fuel. Qed.

(** The loop, by the vector it starts from: with enough turns it ends
    normally when the vector holds live pointers and none twice, having
    deleted them from the back to the front; it is undefined otherwise. *)
Lemma delete_threads_spec b c (l : list nat) :
  forall fuel heap log,
    (length l <= fuel)%nat ->
    (NoDup l /\ Forall (fun a => is_Some (heap !! a)) l ->
     delete_threads fuel (mkPoolStore _ heap b c l) log
     = Done (mkPoolStore _ (foldr delete heap l) b c [],
             log ++ (CallDelete <$> reverse l))) /\
    (~ (NoDup l /\ Forall (fun a => is_Some (heap !! a)) l) ->
     delete_threads fuel (mkPoolStore _ heap b c l) log = Undefined).
Proof.
  induction l as [|a l IH] using rev_ind; intros fuel heap log Hfuel.
  - split.
    + intros _. rewrite delete_threads_nil. by rewrite app_nil_r.
    + intros Hno. destruct Hno. split; constructor.
  - rewrite length_app in Hfuel. simpl in Hfuel.
    destruct fuel as [|fuel]; [lia|].
    rewrite delete_threads_snoc.
    assert (Forall (fun x => is_Some (delete a heap !! x)) l <->
            (a ∉ l) /\ Forall (fun x => is_Some (heap !! x)) l) as Hlive.
    { rewrite !Forall_forall. split.
      - intros Hall. split.
        + intros Ha. specialize (Hall a Ha). rewrite lookup_delete_eq in Hall.
          by destruct Hall.
        + intros x Hx. specialize (Hall x Hx).
          destruct (decide (a = x)) as [->|Hne].
          * rewrite lookup_delete_eq in Hall. by destruct Hall.
          * by rewrite lookup_delete_ne in Hall.
      - intros [Ha Hall] x Hx. rewrite lookup_delete_ne; [by apply Hall|].
        intros ->. done. }
    assert (NoDup (l ++ [a]) /\ Forall (fun x => is_Some (heap !! x)) (l ++ [a]) <->
            is_Some (heap !! a) /\ NoDup l /\
            Forall (fun x => is_Some (delete a heap !! x)) l) as Hown.
    { rewrite Hlive, NoDup_app, Forall_app, Forall_singleton. split.
      - intros [(Hnd & Hnot & _) [Hall Ha]]. split_and!; [done|done| |done].
        intros Hin. apply (Hnot a Hin). apply list_elem_of_here.
      - intros (Ha & Hnd & Hnot & Hall). split_and!; [done| | |done|done].
        + intros x Hx ->%list_elem_of_singleton. done.
        + apply NoDup_singleton. }
    destruct (IH fuel (delete a heap) (log ++ [CallDelete a])) as [IHok IHbad]; [lia|].
    destruct (heap !! a) as [th|] eqn:Hha.
    + split.
      * intros Hok. apply Hown in Hok as (_ & Hnd & Hall).
        rewrite IHok by done.
        by rewrite foldr_app, reverse_snoc, fmap_cons, <- app_assoc.
      * intros Hbad. apply IHbad. intros [Hnd Hall]. apply Hbad, Hown.
        split_and!; [by eexists|done|done].
    + split.
      * intros Hok. apply Hown in Hok as ([th Hth] & _). discriminate Hth.
      * done.
Qed.

Lemma ThreadPool_dtor_spec fuel st :
  (ThreadPool_size st <= fuel)%nat ->
  (owns_threads st ->
   ThreadPool_dtor fuel st =
   Done (mkPoolStore _ (foldr delete (store_heap st) (store_threads st))
                     (store_stop st) (store_increaseDepth st) [],
         match store_threads st with
         | [] => []
         | a :: _ =>
           CallWaitForSearchFinished a :: (CallDelete <$> reverse (store_threads st))
         end)) /\
  (~ owns_threads st -> ThreadPool_dtor fuel st = Undefined).
Proof.
  destruct st as [heap b c l].
  unfold ThreadPool_size, owns_threads, ThreadPool_dtor, ThreadPool_main.
  cbn [store_threads store_heap store_stop store_increaseDepth].
  intros Hfuel.
  destruct l as [|a l].
  { split; [done|]. intros Hno. destruct Hno. split; constructor. }
  cbn [length Nat.ltb Nat.leb head].
  destruct (delete_threads_spec b c (a :: l) fuel heap [CallWaitForSearchFinished a] Hfuel)
    as [Hok Hbad].
  destruct (heap !! a) as [th|] eqn:Hha.
  - split; [intros Hown; rewrite Hok by done; reflexivity|exact Hbad].
  - split; [|done].
    intros [_ Hall]. apply Forall_cons in Hall as [[th Hth] _].
    rewrite Hha in Hth. discriminate Hth.
Qed.

(** A normal end of the destructor, with any bound on the turns, is the end
    it has with enough turns: a run cut off by the bound is not normal. *)
Lemma delete_threads_done fuel :
  forall st log r,
    delete_threads fuel st log = Done r -> (length (store_threads st) <= fuel)%nat.
Proof.
  induction fuel as [|fuel IH]; intros [heap b c l] log r Hr.
  - destruct l; [simpl; lia|discriminate Hr].
  - destruct l as [|a l _] using rev_ind; [simpl; lia|].
    rewrite delete_threads_snoc in Hr.
    destruct (heap !! a); [|discriminate Hr].
    apply IH in Hr. simpl in *. rewrite length_app. simpl. lia.
Qed.

Lemma ThreadPool_dtor_done fuel st r :
  ThreadPool_dtor fuel st = Done r -> (ThreadPool_size st <= fuel)%nat.
Proof.
  unfold ThreadPool_dtor, ThreadPool_size.
  destruct (store_threads st) as [|a l] eqn:Hl; [simpl; lia|].
  cbn [length Nat.ltb Nat.leb]. unfold ThreadPool_main. rewrite Hl. cbn [head].
  destruct (store_heap st !! a); [|discriminate].
  intros Hr. apply delete_threads_done in Hr. by rewrite Hl in Hr.
Qed.

Lemma ThreadPool_dtor_done_owns fuel st r :
  ThreadPool_dtor fuel st = Done r -> owns_threads st.
Proof.
  intros Hr. pose proof (ThreadPool_dtor_done _ _ _ Hr) as Hfuel.
  destruct (ThreadPool_dtor_spec fuel st Hfuel) as [_ Hbad].
  destruct (decide (NoDup (store_threads st))) as [Hnd|Hnd].
  - destruct (decide (Forall (fun a => is_Some (store_heap st !! a)) (store_threads st)))
      as [Hall|Hall]; [by split|].
    rewrite Hbad in Hr; [discriminate Hr|]. by intros [_ ?].
  - rewrite Hbad in Hr; [discriminate Hr|]. by intros [? _].
Qed.

(** The loop over the pointers reads what the loop over the threads reads. *)
Lemma accumulate_from_load heap (member : Thread -> Z) (ptrs : list nat) :
  forall sum,
    accumulate_from heap member ptrs sum =
    (fun ths => fold_left (fun sum th => wrap64 (sum + member th)) ths sum)
      <$> load_threads heap ptrs.
Proof.
  induction ptrs as [|a ptrs IH]; intros sum; [done|].
  cbn [accumulate_from load_threads].
  destruct (heap !! a) as [th|]; [|done].
  rewrite IH. by destruct (load_threads heap ptrs).
Qed.

Lemma load_threads_None heap (ptrs : list nat) :
  load_threads heap ptrs = None <-> exists a, a ∈ ptrs /\ heap !! a = None.
Proof.
  induction ptrs as [|a ptrs IH]; cbn [load_threads].
  - split; [done|]. intros (a & Ha & _). by apply not_elem_of_nil in Ha.
  - destruct (heap !! a) as [th|] eqn:Hha.
    + destruct (load_threads heap ptrs) as [ths|].
      * split; [done|]. intros (x & [->|Hx]%elem_of_cons & Hnone).
        -- rewrite Hha in Hnone. discriminate Hnone.
        -- assert (@None (list Thread) = None) as Heq by done.
           discriminate (proj2 IH (ex_intro _ x (conj Hx Hnone))).
      * split; [|done]. intros _.
        destruct (proj1 IH eq_refl) as (x & Hx & Hnone).
        exists x. split; [by apply list_elem_of_further|done].
    + split; [|done]. intros _. exists a. split; [apply list_elem_of_here|done].
Qed.

End PoolMemory.

(** The destructor ends within [size()] turns of its loop.  It ends normally
    exactly when the pool owns its threads (every pointer of the vector
    points to a live thread and none occurs twice); otherwise it deletes a
    pointer to no live object, which is undefined. *)
Theorem ThreadPool_dtor_defined_iff `{TypesH} (fuel : nat) (st : PoolStore) :
  (ThreadPool_size st <= fuel)%nat ->
  ThreadPool_dtor fuel st <> OutOfFuel /\
  ((exists r, ThreadPool_dtor fuel st = Done r) <-> owns_threads st) /\
  (ThreadPool_dtor fuel st = Undefined <-> ~ owns_threads st).
Proof.
  intros Hfuel. destruct (ThreadPool_dtor_spec fuel st Hfuel) as [Hok Hbad].
  assert (Decision (owns_threads st)) as [Hown|Hown] by (unfold owns_threads; apply _).
  - rewrite (Hok Hown). split_and!.
    + discriminate.
    + split; [done|]. intros _. by eexists.
    + split; [discriminate|done].
  - rewrite (Hbad Hown). split_and!.
    + discriminate.
    + split; [intros [r Hr]; discriminate Hr|done].
    + done.
Qed.

Lemma ThreadPool_dtor_defined_witness :
  (@ThreadPool_size toy_types toy_store <= 2)%nat /\
  @ThreadPool_dtor toy_types 2 toy_store <> OutOfFuel /\
  ((exists r, @ThreadPool_dtor toy_types 2 toy_store = Done r)
   <-> @owns_threads toy_types toy_store) /\
  (@ThreadPool_dtor toy_types 2 toy_store = Undefined
   <-> ~ @owns_threads toy_types toy_store).
Proof.
  assert (@ThreadPool_size toy_types toy_store <= 2)%nat as Hfuel by (vm_compute; lia).
  split; [exact Hfuel|].
  exact (@ThreadPool_dtor_defined_iff toy_types 2 toy_store Hfuel).
Defined.

(** When the destructor has ended, the vector is empty, exactly the threads
    the vector pointed to are no longer alive, every other object on the
    heap is as it was, and the two flags are untouched. *)
Theorem ThreadPool_dtor_frees_exactly `{TypesH} (fuel : nat) (st st' : PoolStore)
    (log : list PoolCall) :
  ThreadPool_dtor fuel st = Done (st', log) ->
  store_threads st' = [] /\
  ThreadPool_size st' = 0%nat /\
  ThreadPool_empty st' = true /\
  (forall a, a ∈ store_threads st -> store_heap st' !! a = None) /\
  (forall a, a ∉ store_threads st -> store_heap st' !! a = store_heap st !! a) /\
  store_stop st' = store_stop st /\
  store_increaseDepth st' = store_increaseDepth st.
Proof.
  intros Hr.
  pose proof (ThreadPool_dtor_done _ _ _ Hr) as Hfuel.
  pose proof (ThreadPool_dtor_done_owns _ _ _ Hr) as Hown.
  destruct (ThreadPool_dtor_spec fuel st Hfuel) as [Hok _].
  rewrite (Hok Hown) in Hr. injection Hr as <- _.
  split_and!; try reflexivity.
  - intros a Ha. by apply freed_lookup_in.
  - intros a Ha. by apply freed_lookup_out.
Qed.

Lemma ThreadPool_dtor_frees_witness :
  @ThreadPool_dtor toy_types 2 toy_store
    = Done (toy_store_destroyed,
            [CallWaitForSearchFinished 10%nat; CallDelete 20%nat; CallDelete 10%nat]) /\
  store_threads toy_store_destroyed = [] /\
  ThreadPool_size toy_store_destroyed = 0%nat /\
  ThreadPool_empty toy_store_destroyed = true /\
  (forall a, a ∈ store_threads toy_store -> store_heap toy_store_destroyed !! a = None) /\
  (forall a, a ∉ store_threads toy_store ->
             store_heap toy_store_destroyed !! a = store_heap toy_store !! a) /\
  store_stop toy_store_destroyed = store_stop toy_store /\
  store_increaseDepth toy_store_destroyed = store_increaseDepth toy_store.
Proof.
  assert (@ThreadPool_dtor toy_types 2 toy_store
            = Done (toy_store_destroyed,
                    [CallWaitForSearchFinished 10%nat; CallDelete 20%nat;
                     CallDelete 10%nat])) as Hrun by (vm_compute; reflexivity).
  split; [exact Hrun|].
  exact (@ThreadPool_dtor_frees_exactly toy_types 2 toy_store toy_store_destroyed _ Hrun).
Defined.

(** What the destructor calls, in order: nothing at all on an empty pool
    (in particular not [main()], which is undefined there); otherwise
    [wait_for_search_finished] on the main thread first, and then [delete]
    on every thread once, from the back of the vector to the front, so that
    the main thread is deleted last. *)
Theorem ThreadPool_dtor_calls `{TypesH} (fuel : nat) (st st' : PoolStore)
    (log : list PoolCall) :
  ThreadPool_dtor fuel st = Done (st', log) ->
  log = match store_threads st with
        | [] => []
        | a :: _ =>
          CallWaitForSearchFinished a :: (CallDelete <$> reverse (store_threads st))
        end /\
  (forall a rest, store_threads st = a :: rest -> last log = Some (CallDelete a)).
Proof.
  intros Hr.
  pose proof (ThreadPool_dtor_done _ _ _ Hr) as Hfuel.
  pose proof (ThreadPool_dtor_done_owns _ _ _ Hr) as Hown.
  destruct (ThreadPool_dtor_spec fuel st Hfuel) as [Hok _].
  rewrite (Hok Hown) in Hr. injection Hr as _ <-.
  split; [reflexivity|].
  intros a rest ->. rewrite reverse_cons, fmap_app.
  change (CallWaitForSearchFinished a :: (CallDelete <$> reverse rest) ++ (CallDelete <$> [a]))
    with ((CallWaitForSearchFinished a :: (CallDelete <$> reverse rest)) ++ [CallDelete a]).
  apply last_snoc.
Qed.

Lemma ThreadPool_dtor_calls_witness :
  @ThreadPool_dtor toy_types 2 toy_store
    = Done (toy_store_destroyed,
            [CallWaitForSearchFinished 10%nat; CallDelete 20%nat; CallDelete 10%nat]) /\
  [CallWaitForSearchFinished 10%nat; CallDelete 20%nat; CallDelete 10%nat]
    = match store_threads toy_store with
      | [] => []
      | a :: _ =>
        CallWaitForSearchFinished a :: (CallDelete <$> reverse (store_threads toy_store))
      end /\
  (forall a rest,
     store_threads toy_store = a :: rest ->
     last [CallWaitForSearchFinished 10%nat; CallDelete 20%nat; CallDelete 10%nat]
     = Some (CallDelete a)).
Proof.
  assert (@ThreadPool_dtor toy_types 2 toy_store
            = Done (toy_store_destroyed,
                    [CallWaitForSearchFinished 10%nat; CallDelete 20%nat;
                     CallDelete 10%nat])) as Hrun by (vm_compute; reflexivity).
  split; [exact Hrun|].
  exact (@ThreadPool_dtor_calls toy_types 2 toy_store toy_store_destroyed _ Hrun).
Defined.

(** [accumulate] over the pointers of the vector returns what [accumulate]
    returns on the threads they point to; it has no defined result exactly
    when some pointer of the vector points to no live thread. *)
Theorem ThreadPool_accumulate_load `{TypesH} (member : Thread -> Z) (st : PoolStore) :
  ThreadPool_accumulate member st = accumulate member <$> load_pool st /\
  (ThreadPool_accumulate member st = None <->
   exists a, a ∈ store_threads st /\ store_heap st !! a = None).
Proof.
  assert (ThreadPool_accumulate member st = accumulate member <$> load_pool st) as Heq.
  { unfold ThreadPool_accumulate, load_pool. rewrite accumulate_from_load.
    by destruct (load_threads (store_heap st) (store_threads st)). }
  split; [exact Heq|].
  rewrite Heq, <- load_threads_None. unfold load_pool.
  by destruct (load_threads (store_heap st) (store_threads st)).
Qed.

(** ** More on the counters' sum *)

Lemma counter_total_Zsum `{TypesH} (member : Thread -> Z) b c (l : list Thread) :
  counter_total member {| stop := b; increaseDepth := c; threads := l |}
  = Zsum (member <$> l).
Proof. reflexivity. Qed.

(** The sum over a pool is the [uint64_t] sum of the sums over its parts:
    what [accumulate] returns on the threads [l1 ++ l2] is what it returns
    on [l1] plus what it returns on [l2], modulo 2^64. *)
Theorem accumulate_app `{TypesH} (member : Thread -> Z) (b c : bool)
    (l1 l2 : list Thread) :
  accumulate member {| stop := b; increaseDepth := c; threads := l1 ++ l2 |} =
  wrap64 (accumulate member {| stop := b; increaseDepth := c; threads := l1 |} +
          accumulate member {| stop := b; increaseDepth := c; threads := l2 |}).
Proof.
  rewrite !accumulate_total, !counter_total_Zsum, fmap_app, Zsum_app.
  unfold wrap64. apply Z.add_mod. discriminate.
Qed.

Lemma Zsum_insert `{TypesH} (member : Thread -> Z) (l : list Thread) :
  forall i th th',
    l !! i = Some th ->
    Zsum (member <$> <[i := th']> l) = Zsum (member <$> l) + (member th' - member th).
Proof.
  unfold Zsum. induction l as [|x l IH]; intros i th th' Hi; [done|].
  destruct i as [|i]; csimpl in *.
  - injection Hi as ->. lia.
  - rewrite (IH i th th' Hi). lia.
Qed.

(** When one thread of the pool is replaced by another, what [accumulate]
    returns changes by the difference of the two counters, modulo 2^64; in
    particular it does not change when the counter is the same. *)
Theorem accumulate_replace `{TypesH} (member : Thread -> Z) (b c : bool)
    (l : list Thread) (i : nat) (th th' : Thread) :
  l !! i = Some th ->
  accumulate member {| stop := b; increaseDepth := c; threads := <[i := th']> l |} =
  wrap64 (accumulate member {| stop := b; increaseDepth := c; threads := l |}
          + (member th' - member th)).
Proof.
  intros Hi. rewrite !accumulate_total, !counter_total_Zsum.
  rewrite (Zsum_insert member l i th th' Hi).
  fold (wrap64 (Zsum (member <$> l))). by rewrite wrap64_add_l.
Qed.

Lemma accumulate_replace_witness :
  [toy_thread; toy_busy_thread] !! 0%nat = Some toy_thread /\
  accumulate Thread_nodes
    (@mkThreadPool toy_types false true (<[0%nat := toy_busy_thread]> [toy_thread; toy_busy_thread])) =
  wrap64 (accumulate Thread_nodes (@mkThreadPool toy_types false true [toy_thread; toy_busy_thread])
          + (Thread_nodes toy_busy_thread - Thread_nodes toy_thread)).
Proof.
  split; [reflexivity|].
  exact (@accumulate_replace toy_types Thread_nodes false true
           [toy_thread; toy_busy_thread] 0 toy_thread toy_busy_thread eq_refl).
Defined.

Lemma Zsum_ge_member (l : list Z) z :
  Forall (fun x => 0 <= x) l -> z ∈ l -> z <= Zsum l.
Proof.
  unfold Zsum. induction 1 as [|x l Hx Hl IH]; intros Hz.
  - by apply not_elem_of_nil in Hz.
  - pose proof (Zsum_nonneg l Hl) as Hnn. unfold Zsum in Hnn. simpl.
    apply elem_of_cons in Hz as [->|Hz]; [lia|]. specialize (IH Hz). lia.
Qed.

(** As long as the sum fits 64 bits, what [accumulate] returns is at least
    the counter of every single thread of the pool. *)
Theorem accumulate_ge_member `{TypesH} (member : Thread -> Z) (p : ThreadPool)
    (th : Thread) :
  Forall (fun th => is_uint64 (member th)) (threads p) ->
  counter_total member p < 2 ^ 64 ->
  th ∈ threads p ->
  member th <= accumulate member p.
Proof.
  intros Hrange Hfits Hth. rewrite accumulate_exact by done.
  unfold counter_total. apply Zsum_ge_member.
  - apply Forall_fmap. eapply Forall_impl; [exact Hrange|]. by intros x [? _].
  - by apply list_elem_of_fmap_2.
Qed.

Lemma accumulate_ge_member_witness :
  Forall (fun th => is_uint64 (Thread_nodes th)) (threads toy_pool2) /\
  counter_total Thread_nodes toy_pool2 < 2 ^ 64 /\
  toy_busy_thread ∈ threads toy_pool2 /\
  Thread_nodes toy_busy_thread <= accumulate Thread_nodes toy_pool2.
Proof.
  assert (Forall (fun th => is_uint64 (Thread_nodes th)) (threads toy_pool2)) as Hrange.
  { repeat constructor; unfold is_uint64; simpl; lia. }
  assert (counter_total Thread_nodes toy_pool2 < 2 ^ 64) as Hfits by reflexivity.
  assert (toy_busy_thread ∈ threads toy_pool2) as Hin.
  { apply list_elem_of_further, list_elem_of_here. }
  split; [exact Hrange|]. split; [exact Hfits|]. split; [exact Hin|].
  exact (@accumulate_ge_member toy_types Thread_nodes toy_pool2 toy_busy_thread
           Hrange Hfits Hin).
Defined.
